(** * ts-templates: the Lock time-lock template and the SIGMA signature template

    A shallow embedding of [src/Lock.ts] (the minimal script-number codec,
    [lock], [isLock], [decode]) and of the SIGMA template ([Sigma.decode],
    [Sigma.sign], [verifyWithHashes], [unlock]), with the properties the
    specification states about them.

    Conventions.
    - A JavaScript [number] that holds an integer is a [Z]; the 32-bit
      operators ([&], [|], [~], [<<], [>>]) are written out with their
      [ToInt32] wrap-around in module [JS].
    - A byte array ([number[]]) is a [list Z]; a hexadecimal string, as
      [Script.toHex] produces it, is a list of hexadecimal digits.
    - [throw] / [try] / [catch] are explicit: a computation returns a
      [result], and the verifier, which assigns to [this.data.valid], runs
      in a state-and-exception monad over the record. *)

From Stdlib Require Import ZArith String Ascii List Bool Lia.
Import ListNotations.
Open Scope Z_scope.

(* ================================================================== *)
(** * JavaScript integers *)
(* ================================================================== *)

Module JS.

(** [ToInt32]: reduction modulo 2^32 into the signed range. *)
Definition ToInt32 (x : Z) : Z := (x + 2 ^ 31) mod 2 ^ 32 - 2 ^ 31.

(** [a & b] *)
Definition band (a b : Z) : Z := Z.land (ToInt32 a) (ToInt32 b).

(** [a | b] *)
Definition bor (a b : Z) : Z := Z.lor (ToInt32 a) (ToInt32 b).

(** [~a] *)
Definition bnot (a : Z) : Z := Z.lnot (ToInt32 a).

(** [a << k]: the shift count is taken modulo 32, the result wraps. *)
Definition shl (a k : Z) : Z := ToInt32 (Z.shiftl (ToInt32 a) (k mod 32)).

(** [a >> k]: sign-propagating shift of the 32-bit value. *)
Definition sar (a k : Z) : Z := Z.shiftr (ToInt32 a) (k mod 32).

(** [s.slice(start, end)] on a sequence, with JavaScript's treatment of
    negative and out-of-range indices. *)
Definition clampIndex (len i : Z) : Z :=
  if i <? 0 then Z.max (len + i) 0 else Z.min i len.

Definition slice {A : Type} (s : list A) (start stop : Z) : list A :=
  let len := Z.of_nat (length s) in
  let from := clampIndex len start in
  let to := clampIndex len stop in
  firstn (Z.to_nat (to - from)) (skipn (Z.to_nat from) s).

End JS.

(* ================================================================== *)
(** * Hexadecimal strings and script chunks (SDK collaborator) *)
(* ================================================================== *)

Inductive hexdigit : Type :=
| H0 | H1 | H2 | H3 | H4 | H5 | H6 | H7
| H8 | H9 | Ha | Hb | Hc | Hd | He | Hf.

Definition hexstring : Type := list hexdigit.

Definition hexdigit_eqb (a b : hexdigit) : bool :=
  match a, b with
  | H0, H0 | H1, H1 | H2, H2 | H3, H3 | H4, H4 | H5, H5 | H6, H6 | H7, H7
  | H8, H8 | H9, H9 | Ha, Ha | Hb, Hb | Hc, Hc | Hd, Hd | He, He | Hf, Hf => true
  | _, _ => false
  end.

Definition digit_val (d : hexdigit) : Z :=
  match d with
  | H0 => 0 | H1 => 1 | H2 => 2 | H3 => 3 | H4 => 4 | H5 => 5 | H6 => 6 | H7 => 7
  | H8 => 8 | H9 => 9 | Ha => 10 | Hb => 11 | Hc => 12 | Hd => 13 | He => 14 | Hf => 15
  end.

Definition digit_of (x : Z) : hexdigit :=
  match x mod 16 with
  | 0 => H0 | 1 => H1 | 2 => H2 | 3 => H3 | 4 => H4 | 5 => H5 | 6 => H6 | 7 => H7
  | 8 => H8 | 9 => H9 | 10 => Ha | 11 => Hb | 12 => Hc | 13 => Hd | 14 => He | _ => Hf
  end.

(** Reads a string literal as a hexadecimal string (characters that are not
    hexadecimal digits are dropped); used to write the constants as the
    source does. *)
Definition digit_of_ascii (c : ascii) : option hexdigit :=
  match c with
  | "0" => Some H0 | "1" => Some H1 | "2" => Some H2 | "3" => Some H3
  | "4" => Some H4 | "5" => Some H5 | "6" => Some H6 | "7" => Some H7
  | "8" => Some H8 | "9" => Some H9 | "a" => Some Ha | "b" => Some Hb
  | "c" => Some Hc | "d" => Some Hd | "e" => Some He | "f" => Some Hf
  | _ => None
  end%char.

Fixpoint hex (s : string) : hexstring :=
  match s with
  | EmptyString => []
  | String c s' =>
      match digit_of_ascii c with
      | Some d => d :: hex s'
      | None => hex s'
      end
  end.

(** [parseInt(s, 16)] on a string of hexadecimal digits; [s] is never empty
    where the source calls it. *)
Definition parseInt16 (s : hexstring) : Z :=
  fold_left (fun acc d => acc * 16 + digit_val d) s 0.

(** Modelled from the spec: the SDK's [Utils.toHex] (external
    collaborator, §6): two lower-case hexadecimal digits per byte. *)
Definition byteHex (b : Z) : hexstring := [digit_of (b / 16); digit_of b].

Definition Utils_toHex (bytes : list Z) : hexstring := flat_map byteHex bytes.

(** Modelled from the spec: the SDK's [Utils.toArray(msg, 'hex')] (external
    collaborator, §6): a string of odd length gets a leading zero digit,
    then every pair of digits is one byte. *)
Fixpoint hexPairs (s : hexstring) : list Z :=
  match s with
  | a :: b :: rest => parseInt16 [a; b] :: hexPairs rest
  | _ => []
  end.

Definition Utils_toArray_hex (msg : hexstring) : list Z :=
  if Nat.odd (length msg) then hexPairs (H0 :: msg) else hexPairs msg.

(** A script chunk: an opcode and, for a push, its data. *)
Record ScriptChunk : Type := mkChunk {
  op : Z;
  data : option (list Z)
}.

Definition Script : Type := list ScriptChunk.

Definition OP_PUSHDATA1 : Z := 0x4c.
Definition OP_PUSHDATA2 : Z := 0x4d.
Definition OP_PUSHDATA4 : Z := 0x4e.

(** Little-endian length field of [width] bytes. *)
Fixpoint uintLE (width : nat) (n : Z) : list Z :=
  match width with
  | O => []
  | S w => n mod 256 :: uintLE w (n / 256)
  end.

(** Modelled from the spec: the SDK's [Script.toBinary] (external
    collaborator, §6 "Script binary format"): the opcode byte, then for a
    chunk with data the bytes of the data, preceded by a length field for the
    three PUSHDATA opcodes. *)
Definition chunk_toBinary (c : ScriptChunk) : list Z :=
  op c ::
  match data c with
  | None => []
  | Some d =>
      let len := Z.of_nat (length d) in
      if op c <? OP_PUSHDATA1 then d
      else if op c =? OP_PUSHDATA1 then uintLE 1 len ++ d
      else if op c =? OP_PUSHDATA2 then uintLE 2 len ++ d
      else if op c =? OP_PUSHDATA4 then uintLE 4 len ++ d
      else []
  end.

Definition Script_toBinary (s : Script) : list Z := flat_map chunk_toBinary s.

Definition Script_toHex (s : Script) : hexstring := Utils_toHex (Script_toBinary s).

(** Reads [n] little-endian bytes. *)
Fixpoint readLE (bytes : list Z) : Z :=
  match bytes with
  | [] => 0
  | b :: rest => b + 256 * readLE rest
  end.

(** Modelled from the spec: the SDK's [Script.fromBinary] (external
    collaborator, §6 "Script binary format"): opcode bytes 0x01-0x4b push
    that many bytes, 0x4c-0x4e read a length field first, every other byte
    is a bare opcode.  The recursion is on a bound of the number of chunks,
    the length of the input. *)
Fixpoint parseChunks (fuel : nat) (bin : list Z) : list ScriptChunk :=
  match fuel with
  | O => []
  | S fuel' =>
      match bin with
      | [] => []
      | o :: rest =>
          if (0 <? o) && (o <? OP_PUSHDATA1) then
            mkChunk o (Some (firstn (Z.to_nat o) rest))
              :: parseChunks fuel' (skipn (Z.to_nat o) rest)
          else if (OP_PUSHDATA1 <=? o) && (o <=? OP_PUSHDATA4) then
            let w := if o =? OP_PUSHDATA1 then 1%nat
                     else if o =? OP_PUSHDATA2 then 2%nat else 4%nat in
            let len := Z.to_nat (readLE (firstn w rest)) in
            mkChunk o (Some (firstn len (skipn w rest)))
              :: parseChunks fuel' (skipn len (skipn w rest))
          else
            mkChunk o None :: parseChunks fuel' rest
      end
  end.

Definition Script_fromBinary (bin : list Z) : Script :=
  parseChunks (length bin) bin.

Definition Script_fromHex (h : hexstring) : Script :=
  Script_fromBinary (Utils_toArray_hex h).

(* ================================================================== *)
(** * Exceptions *)
(* ================================================================== *)

(** What a call yields: a value, or a thrown error with its message. *)
Inductive result (A : Type) : Type :=
| Ok (a : A)
| Throw (msg : string).

Arguments Ok {A} a.
Arguments Throw {A} msg.

Definition rbind {A B : Type} (r : result A) (k : A -> result B) : result B :=
  match r with
  | Ok a => k a
  | Throw e => Throw e
  end.

(** [try { body } catch { handler }] *)
Definition try_catch {A : Type} (body : result A) (handler : result A) : result A :=
  match body with
  | Ok a => Ok a
  | Throw _ => handler
  end.

Declare Scope result_scope.
Delimit Scope result_scope with result.
Notation "x <- c ;; k" := (rbind c (fun x => k))
  (at level 61, c at next level, right associativity) : result_scope.

(** Equality of sequences, for [startsWith] and [endsWith]. *)
Fixpoint hex_eqb (a b : hexstring) : bool :=
  match a, b with
  | [], [] => true
  | x :: a', y :: b' => hexdigit_eqb x y && hex_eqb a' b'
  | _, _ => false
  end.

(** [s.startsWith(p)] *)
Definition startsWith (s p : hexstring) : bool :=
  hex_eqb (firstn (length p) s) p.

(** [s.endsWith(p)] *)
Definition endsWith (s p : hexstring) : bool :=
  (length p <=? length s)%nat && hex_eqb (skipn (length s - length p) s) p.

(* ================================================================== *)
(** * Lock.ts *)
(* ================================================================== *)

Module Lock.

Definition LOCK_PREFIX : hexstring :=
  hex "20d37f4de0d1c735b4d51a5572df0f3d9104d1d9e99db8694fdd1b1a92e1f0dce1757601687f76a9".

Definition LOCK_SUFFIX : hexstring :=
  hex "88ac7e7601207f75a9011488".

Record LockDecoded : Type := mkLockDecoded {
  pkh : list Z;
  until : Z
}.

(** ** encodeBlockHeight *)

(** The loop [while (n > 0) { bytes.push(n & 0xff); n >>= 8 }], with the
    state [(n, bytes)] it leaves.  From the second iteration on [n] is a
    32-bit value shifted right by 8, so the loop runs at most four times
    ([while_push_exits] below); [fuel] bounds the unfolding. *)
Fixpoint while_push (fuel : nat) (n : Z) (bytes : list Z) : Z * list Z :=
  match fuel with
  | O => (n, bytes)
  | S fuel' =>
      if n >? 0
      then while_push fuel' (JS.sar n 8) (bytes ++ [JS.band n 0xff])
      else (n, bytes)
  end.

Definition while_fuel : nat := 4.

(** [bytes[bytes.length - 1]], [undefined] being read as 0 by [&]. *)
Definition top (bytes : list Z) : Z := last bytes 0.

(** [bytes[bytes.length - 1] |= m]; on an empty array this sets a property
    that is not an element. *)
Definition or_top (bytes : list Z) (m : Z) : list Z :=
  match bytes with
  | [] => []
  | _ => removelast bytes ++ [JS.bor (top bytes) m]
  end.

Definition encodeBlockHeight (height : Z) : list ScriptChunk :=
  if height =? 0 then [mkChunk 0 None]
  else if (height >=? 1) && (height <=? 16) then [mkChunk (0x50 + height) None]
  else if height =? -1 then [mkChunk 0x4f None]
  else
    let n := height in
    let negative := n <? 0 in
    let n := if negative then - n else n in
    let bytes := snd (while_push while_fuel n []) in
    let bytes :=
      if negb (JS.band (top bytes) 0x80 =? 0)
      then bytes ++ [if negative then 0x80 else 0x00]
      else if negative then or_top bytes 0x80
      else bytes in
    [mkChunk (Z.of_nat (length bytes)) (Some bytes)].

(** ** decodeBlockHeight *)

(** [for (i = 0; i < bytes.length; i++) result |= bytes[i] << (8 * i)] *)
Fixpoint or_loop (bytes : list Z) (i : Z) (result : Z) : Z :=
  match bytes with
  | [] => result
  | b :: rest => or_loop rest (i + 1) (JS.bor result (JS.shl b (8 * i)))
  end.

Definition decodeBlockHeight (h : hexstring) : Z :=
  if (length h =? 0)%nat then 0
  else
    let opcode := parseInt16 (JS.slice h 0 2) in
    if opcode =? 0 then 0
    else if (opcode >=? 0x51) && (opcode <=? 0x60) then opcode - 0x50
    else if opcode =? 0x4f then -1
    else
      let dataHex := JS.slice h 2 (2 + opcode * 2) in
      let bytes := Utils_toArray_hex dataHex in
      if (length bytes =? 0)%nat then 0
      else
        let result := or_loop bytes 0 0 in
        let len := Z.of_nat (length bytes) in
        if negb (JS.band (top bytes) 0x80 =? 0)
        then - (JS.band result (JS.bnot (JS.shl 0x80 (8 * (len - 1)))))
        else result.

(** ** isLock, decode, lock *)

Definition isLock (script : Script) : bool :=
  let h := Script_toHex script in
  startsWith h LOCK_PREFIX && endsWith h LOCK_SUFFIX.

Definition decode (script : Script) : result LockDecoded :=
  if negb (isLock script) then Throw "Script is not a valid Lock script"
  else
    let h := Script_toHex script in
    let pkhOpcodeStart := Z.of_nat (length LOCK_PREFIX) in
    let pkhDataStart := pkhOpcodeStart + 2 in
    let pkhHex := JS.slice h pkhDataStart (pkhDataStart + 40) in
    let pkh := Utils_toArray_hex pkhHex in
    let untilStart := pkhDataStart + 40 in
    let suffixStart := Z.of_nat (length h) - Z.of_nat (length LOCK_SUFFIX) in
    let untilHex := JS.slice h untilStart suffixStart in
    let until := decodeBlockHeight untilHex in
    Ok (mkLockDecoded pkh until).

Section WithAddresses.

(** [Utils.fromBase58Check(address).data]: the payload of a
    base58check address, or a thrown error (external collaborator). *)
Variable Utils_fromBase58Check : string -> result (list Z).

Definition lock (address : string) (until : Z) : result Script :=
  (pkh <- Utils_fromBase58Check address ;;
   Ok (Script_fromHex LOCK_PREFIX
         ++ [mkChunk 20 (Some pkh)]
         ++ encodeBlockHeight until
         ++ Script_fromHex LOCK_SUFFIX))%result.

End WithAddresses.

End Lock.


(* ================================================================== *)
(** * The SIGMA template *)
(* ================================================================== *)

(** A JavaScript [number] where [NaN] can occur ([parseInt] of a field). *)
Inductive number : Type :=
| NaN
| Num (z : Z).

(** [parseInt(s, 10)]: leading white space, an optional sign, then the
    longest run of decimal digits; [NaN] when there is none.  The text is
    read as ASCII (the white space skipped is tab, line feed, vertical tab,
    form feed, carriage return and space), and the value is the exact
    integer: it is the JavaScript number for magnitudes up to 2^53, beyond
    which JavaScript rounds to the nearest double; "-0" reads as 0. *)
Definition is_space (c : ascii) : bool :=
  let n := N_of_ascii c in
  ((9 <=? n) && (n <=? 13) || (n =? 32))%N.

Fixpoint trim_start (s : string) : string :=
  match s with
  | String c s' => if is_space c then trim_start s' else s
  | EmptyString => s
  end.

Definition decimal_digit (c : ascii) : option Z :=
  let n := Z.of_N (N_of_ascii c) in
  if (48 <=? n) && (n <=? 57) then Some (n - 48) else None.

Fixpoint read_digits (s : string) (acc : option Z) : option Z :=
  match s with
  | String c s' =>
      match decimal_digit c with
      | Some d => read_digits s' (Some (match acc with Some a => a * 10 + d | None => d end))
      | None => acc
      end
  | EmptyString => acc
  end.

Definition parseInt10 (s : string) : number :=
  let s := trim_start s in
  let '(neg, s) :=
    match s with
    | String "-" s' => (true, s')
    | String "+" s' => (false, s')
    | _ => (false, s)
    end in
  match read_digits s None with
  | None => NaN
  | Some v => Num (if neg then - v else v)
  end.

Module Sigma.

Definition SIGMA_PREFIX : string := "SIGMA".

(** The two members of [Algorithm], an enum of strings of the
    sigma-protocol package; [Sigma.decode] casts any decoded string to it. *)
Definition Algorithm_BSM : string := "BSM".
Definition Algorithm_BRC77 : string := "BRC77".

Record SigmaData : Type := mkSigmaData {
  bitcomIndex : option Z;
  algorithm : string;
  address : string;
  signature : list Z;
  vin : number;
  valid : option bool
}.

Definition with_valid (d : SigmaData) (v : bool) : SigmaData :=
  mkSigmaData (bitcomIndex d) (algorithm d) (address d) (signature d) (vin d) (Some v).

(** One entry of [BitComDecoded.protocols]. *)
Record Protocol : Type := mkProtocol {
  protocol : string;
  script : list Z;
  pos : Z
}.

Record BitComDecoded : Type := mkBitComDecoded {
  protocols : list Protocol
}.

(** ** The state-and-exception monad of a method of a [Sigma] instance:
    the state is [this.data]; an assignment made before a [throw] stays. *)
Definition M (A : Type) : Type := SigmaData -> result A * SigmaData.

Definition ret {A : Type} (a : A) : M A := fun d => (Ok a, d).

Definition bind {A B : Type} (m : M A) (k : A -> M B) : M B :=
  fun d =>
    match m d with
    | (Ok a, d') => k a d'
    | (Throw e, d') => (Throw e, d')
    end.

(** A call to a collaborator: its result, the record untouched. *)
Definition call {A : Type} (r : result A) : M A := fun d => (r, d).

(** Reads [this.data]. *)
Definition this_data : M SigmaData := fun d => (Ok d, d).

(** [this.data.valid = v] *)
Definition set_valid (v : bool) : M unit := fun d => (Ok tt, with_valid d v).

(** [try { body } catch { handler }] *)
Definition tryM {A : Type} (body handler : M A) : M A :=
  fun d =>
    match body d with
    | (Ok a, d') => (Ok a, d')
    | (Throw _, d') => handler d'
    end.

Declare Scope sigma_scope.
Delimit Scope sigma_scope with sigma.
Notation "x <- c ;; k" := (bind c (fun x => k))
  (at level 61, c at next level, right associativity) : sigma_scope.
Notation "c ;;; k" := (bind c (fun _ => k))
  (at level 61, right associativity) : sigma_scope.

(** [unlock()]: the method body is a single [throw]. *)
Definition unlock {T : Type} (this : SigmaData) : result T :=
  Throw "SIGMA signatures cannot be unlocked".

(** The SDK's types and functions the template calls (external
    collaborators); a call that may throw returns a [result]. *)
Class Collaborators : Type := {
  Signature : Type;
  PublicKey : Type;
  PrivateKey : Type;
  BigNumber : Type;
  Script_fromBinary : list Z -> result Script;
  Utils_toUTF8 : list Z -> string;
  Utils_toBase64 : list Z -> string;
  Utils_toArray_base64 : string -> list Z;
  PrivateKey_toAddress : PrivateKey -> result string;
  PrivateKey_toPublicKey : PrivateKey -> result PublicKey;
  PublicKey_toAddress : PublicKey -> result string;
  BigNumber_new : list Z -> result BigNumber;
  SignedMessage_sign : list Z -> PrivateKey -> option PublicKey -> result (list Z);
  SignedMessage_verify : list Z -> list Z -> option PrivateKey -> result bool;
  BSM_sign : list Z -> PrivateKey -> result Signature;
  BSM_magicHash : list Z -> result (list Z);
  BSM_verify : list Z -> Signature -> PublicKey -> result bool;
  Signature_fromCompact : string -> result Signature;
  Signature_CalculateRecoveryFactor : Signature -> PublicKey -> BigNumber -> result Z;
  Signature_toCompact : Signature -> Z -> bool -> result string;
  Signature_RecoverPublicKey : Signature -> Z -> BigNumber -> result PublicKey
}.

Section WithCollaborators.

Context {sdk : Collaborators}.

(** ** Sigma.decode *)

(** [chunks[i].data ?? []]; reading [.data] of a missing chunk throws. *)
Definition chunk_data (chunks : Script) (i : nat) : result (list Z) :=
  match nth_error chunks i with
  | Some c => Ok (match data c with Some d => d | None => [] end)
  | None => Throw "TypeError"
  end.

(** The body of the [try] block for one segment; [None] is the
    [continue] of the length check. *)
Definition decodeSegment (protoIdx : Z) (p : Protocol) : result (option SigmaData) :=
  (chunks <- Script_fromBinary (script p) ;;
   if (length chunks <? 4)%nat then Ok None
   else
     c0 <- chunk_data chunks 0 ;;
     c1 <- chunk_data chunks 1 ;;
     c2 <- chunk_data chunks 2 ;;
     c3 <- chunk_data chunks 3 ;;
     Ok (Some (mkSigmaData (Some protoIdx)
                            (Utils_toUTF8 c0)
                            (Utils_toUTF8 c1)
                            c2
                            (parseInt10 (Utils_toUTF8 c3))
                            None)))%result.

(** The [for] loop over [bitcom.protocols], from index [protoIdx]. *)
Fixpoint decode_loop (ps : list Protocol) (protoIdx : Z) (sigmas : list SigmaData)
  : result (list SigmaData) :=
  match ps with
  | [] => Ok sigmas
  | p :: rest =>
      if String.eqb (protocol p) SIGMA_PREFIX then
        (r <- try_catch (decodeSegment protoIdx p) (Ok None) ;;
         match r with
         | Some sigma => decode_loop rest (protoIdx + 1) (sigmas ++ [sigma])
         | None => decode_loop rest (protoIdx + 1) sigmas
         end)%result
      else decode_loop rest (protoIdx + 1) sigmas
  end.

Definition decode (bitcom : BitComDecoded) : result (list SigmaData) :=
  if (length (protocols bitcom) =? 0)%nat then Ok []
  else decode_loop (protocols bitcom) 0 [].

(** ** Sigma.sign *)

Record SigmaOptions : Type := mkSigmaOptions {
  opt_algorithm : option string;
  opt_vin : option number;
  opt_verifier : option PublicKey
}.

Definition sign (inputHash dataHash : list Z) (privateKey : PrivateKey)
    (options : SigmaOptions) : result SigmaData :=
  let algorithm := match opt_algorithm options with Some a => a | None => Algorithm_BSM end in
  let vin := match opt_vin options with Some v => v | None => Num 0 end in
  (address <- PrivateKey_toAddress privateKey ;;
   let messageHash := inputHash ++ dataHash in
   signatureArray <-
     (if String.eqb algorithm Algorithm_BRC77 then
        SignedMessage_sign messageHash privateKey (opt_verifier options)
      else
        sig <- BSM_sign messageHash privateKey ;;
        magicHashValue <- BSM_magicHash messageHash ;;
        pub <- PrivateKey_toPublicKey privateKey ;;
        bn <- BigNumber_new magicHashValue ;;
        recoveryFactor <- Signature_CalculateRecoveryFactor sig pub bn ;;
        compactSig <- Signature_toCompact sig recoveryFactor true ;;
        Ok (Utils_toArray_base64 compactSig)) ;;
   Ok (mkSigmaData None algorithm address signatureArray vin (Some true)))%result.

(** ** verifyWithHashes *)

(** The body of the inner [try] for one recovery factor; [Some b] is a
    [return b], [None] falls through to the next factor. *)
Definition try_recovery (sig : Signature) (messageHash : list Z) (recovery : Z)
  : M (option bool) :=
  tryM
    (magic <- call (BSM_magicHash messageHash) ;;
     bn <- call (BigNumber_new magic) ;;
     publicKey <- call (Signature_RecoverPublicKey sig recovery bn) ;;
     verified <- call (BSM_verify messageHash sig publicKey) ;;
     if verified : bool then
       addr <- call (PublicKey_toAddress publicKey) ;;
       this <- this_data ;;
       if String.eqb addr (address this)
       then set_valid true ;;; ret (Some true)
       else ret None
     else ret None)%sigma
    (ret None).

(** [for (let recovery = 0; recovery < 4; recovery++)], over the
    factors still to try. *)
Fixpoint for_recovery (factors : list Z) (sig : Signature) (messageHash : list Z)
  : M (option bool) :=
  match factors with
  | [] => ret None
  | recovery :: rest =>
      (r <- try_recovery sig messageHash recovery ;;
       match r with
       | Some b => ret (Some b)
       | None => for_recovery rest sig messageHash
       end)%sigma
  end.

Definition verifyWithHashes (inputHash dataHash : list Z)
    (recipientPrivateKey : option PrivateKey) : M bool :=
  tryM
    (let messageHash := inputHash ++ dataHash in
     this <- this_data ;;
     if String.eqb (algorithm this) Algorithm_BRC77 then
       v <- call (SignedMessage_verify messageHash (signature this) recipientPrivateKey) ;;
       set_valid v ;;;
       ret v
     else
       let signatureBase64 := Utils_toBase64 (signature this) in
       sig <- call (Signature_fromCompact signatureBase64) ;;
       r <- for_recovery [0; 1; 2; 3] sig messageHash ;;
       match r with
       | Some b => ret b
       | None => set_valid false ;;; ret false
       end)%sigma
    (set_valid false ;;; ret false)%sigma.

(** [verify()] *)
Definition verify (this : SigmaData) : bool :=
  match valid this with
  | Some true => true
  | _ => false
  end.

End WithCollaborators.

End Sigma.

(* ================================================================== *)
(** * Specification-side definitions *)
(* ================================================================== *)

(** A value that fits a byte. *)
Definition byte (b : Z) : Prop := 0 <= b < 256.

Module LockSpec.

(** The little-endian bytes of a magnitude, least significant first,
    stopping at the last non-zero byte; [k] bounds their number. *)
Fixpoint le_bytes (k : nat) (m : Z) : list Z :=
  match k with
  | O => []
  | S k' => if m =? 0 then [] else m mod 256 :: le_bytes k' (m / 256)
  end.

Definition le_magnitude (m : Z) : list Z :=
  le_bytes (S (Z.to_nat (Z.log2 m))) m.

Definition high_bit_set (b : Z) : bool := Z.testbit b 7.

Definition set_high_bit (b : Z) : Z := Z.lor b 0x80.

(** The payload as the specification words it: the magnitude, one more
    zero byte if the top byte has its high bit set, and the high bit of
    the final byte set for a negative number. *)
Definition spec_payload (n : Z) : list Z :=
  let mag := le_magnitude (Z.abs n) in
  let ext := if high_bit_set (last mag 0) then mag ++ [0] else mag in
  if n <? 0 then removelast ext ++ [set_high_bit (last ext 0)] else ext.

(** The encoder as the specification words it, [op_zero] being the opcode
    of the zero operation. *)
Definition spec_encode (op_zero : Z) (n : Z) : list ScriptChunk :=
  if n =? 0 then [mkChunk op_zero None]
  else if (1 <=? n) && (n <=? 16) then [mkChunk (0x50 + n) None]
  else if n =? -1 then [mkChunk 0x4f None]
  else [mkChunk (Z.of_nat (length (spec_payload n))) (Some (spec_payload n))].

(** The last part of [Lock.decodeBlockHeight]: the number a non-empty
    payload stands for. *)
Definition scriptNum (bytes : list Z) : Z :=
  let result := Lock.or_loop bytes 0 0 in
  let len := Z.of_nat (length bytes) in
  if negb (JS.band (Lock.top bytes) 0x80 =? 0)
  then - (JS.band result (JS.bnot (JS.shl 0x80 (8 * (len - 1)))))
  else result.

(** The heights of the repository's round-trip test. *)
Definition test_heights : list Z :=
  [0; 1; 15; 16; 127; 128; 255; 256; 65535; 500000; 800000; 2147483647].

(** The prefix and the suffix as bytes. *)
Definition LOCK_PREFIX_BYTES : list Z := Utils_toArray_hex Lock.LOCK_PREFIX.
Definition LOCK_SUFFIX_BYTES : list Z := Utils_toArray_hex Lock.LOCK_SUFFIX.

(** A valid address: its payload is a 20-byte public-key hash. *)
Definition valid_address (fromBase58Check : string -> result (list Z))
    (addr : string) : Prop :=
  exists pkh, fromBase58Check addr = Ok pkh /\ length pkh = 20%nat /\ Forall byte pkh.

End LockSpec.

Module SigmaSpec.

Import Sigma.

Section WithCollaborators.

Context {sdk : Collaborators}.

(** Recovery factor [recovery] yields a key that verifies the signature
    and whose address is the record's. *)
Definition Candidate (d : SigmaData) (messageHash : list Z) (sig : Signature)
    (recovery : Z) : Prop :=
  exists magic bn publicKey,
    BSM_magicHash messageHash = Ok magic /\
    BigNumber_new magic = Ok bn /\
    Signature_RecoverPublicKey sig recovery bn = Ok publicKey /\
    BSM_verify messageHash sig publicKey = Ok true /\
    PublicKey_toAddress publicKey = Ok (address d).

(** Some recovery factor of 0..3 is a candidate for the record's
    signature. *)
Definition Recoverable (d : SigmaData) (messageHash : list Z) : Prop :=
  exists sig recovery,
    Signature_fromCompact (Utils_toBase64 (signature d)) = Ok sig /\
    0 <= recovery <= 3 /\
    Candidate d messageHash sig recovery.

(** The verification succeeds: for a BRC77 record [SignedMessage.verify]
    returns [true]; for any other record, a BSM one, some recovery factor
    is a candidate.  A step that throws makes neither hold. *)
Definition Verified (d : SigmaData) (messageHash : list Z)
    (key : option PrivateKey) : Prop :=
  if String.eqb (algorithm d) Algorithm_BRC77
  then SignedMessage_verify messageHash (signature d) key = Ok true
  else Recoverable d messageHash.

(** [chunk.data ?? []] *)
Definition payload (c : ScriptChunk) : list Z :=
  match data c with Some d => d | None => [] end.

(** The record of a segment with at least four sub-fields. *)
Definition record_of (protoIdx : Z) (chunks : Script) : SigmaData :=
  mkSigmaData (Some protoIdx)
    (Utils_toUTF8 (payload (nth 0 chunks (mkChunk 0 None))))
    (Utils_toUTF8 (payload (nth 1 chunks (mkChunk 0 None))))
    (payload (nth 2 chunks (mkChunk 0 None)))
    (parseInt10 (Utils_toUTF8 (payload (nth 3 chunks (mkChunk 0 None)))))
    None.

(** What one segment contributes: its record when it is labelled SIGMA
    and parses to four sub-fields or more, nothing otherwise. *)
Definition segment_records (protoIdx : Z) (p : Protocol) : list SigmaData :=
  if String.eqb (protocol p) SIGMA_PREFIX then
    match Script_fromBinary (script p) with
    | Ok chunks => if (length chunks <? 4)%nat then [] else [record_of protoIdx chunks]
    | Throw _ => []
    end
  else [].

Fixpoint records_from (ps : list Protocol) (protoIdx : Z) : list SigmaData :=
  match ps with
  | [] => []
  | p :: rest => segment_records protoIdx p ++ records_from rest (protoIdx + 1)
  end.

(** A segment of the address-anchored scheme with fewer than four
    sub-fields. *)
Definition short_segment (p : Protocol) : Prop :=
  protocol p = SIGMA_PREFIX /\
  exists chunks, Script_fromBinary (script p) = Ok chunks /\ (length chunks < 4)%nat.

(** A well-formed segment: four sub-fields or more. *)
Definition well_formed_segment (p : Protocol) (chunks : Script) : Prop :=
  protocol p = SIGMA_PREFIX /\
  Script_fromBinary (script p) = Ok chunks /\ (4 <= length chunks)%nat.

End WithCollaborators.

End SigmaSpec.

(** A small instance of the collaborators, to run the template on concrete
    inputs: scripts are parsed by [Script_fromBinary], text is ASCII, a
    signature is its bytes, a key is a number, and public-key recovery
    succeeds for factor 2 only, giving key 7 whose address is "1Key7". *)
Module Toy.

Fixpoint ascii_string (bytes : list Z) : string :=
  match bytes with
  | [] => EmptyString
  | b :: rest => String (ascii_of_N (Z.to_N b)) (ascii_string rest)
  end.

Fixpoint string_bytes (s : string) : list Z :=
  match s with
  | EmptyString => []
  | String c s' => Z.of_N (N_of_ascii c) :: string_bytes s'
  end.

Definition key_address (k : Z) : string :=
  if k =? 7 then "1Key7" else "1Other".

#[local] Instance sdk : Sigma.Collaborators := {|
  Sigma.Signature := list Z;
  Sigma.PublicKey := Z;
  Sigma.PrivateKey := Z;
  Sigma.BigNumber := list Z;
  Sigma.Script_fromBinary := fun bin => Ok (Script_fromBinary bin);
  Sigma.Utils_toUTF8 := ascii_string;
  Sigma.Utils_toBase64 := ascii_string;
  Sigma.Utils_toArray_base64 := string_bytes;
  Sigma.PrivateKey_toAddress := fun k => Ok (key_address k);
  Sigma.PrivateKey_toPublicKey := fun k => Ok k;
  Sigma.PublicKey_toAddress := fun k => Ok (key_address k);
  Sigma.BigNumber_new := fun bytes => Ok bytes;
  Sigma.SignedMessage_sign := fun m k _ => Ok (k :: m);
  Sigma.SignedMessage_verify := fun m s _ => Ok (match s with 7 :: _ => true | _ => false end);
  Sigma.BSM_sign := fun m k => Ok (k :: m);
  Sigma.BSM_magicHash := fun m => Ok m;
  Sigma.BSM_verify := fun m s k => Ok (match s with k' :: _ => k' =? k | [] => false end);
  Sigma.Signature_fromCompact := fun s =>
    if (String.length s =? 0)%nat then Throw "Invalid Compact Signature"
    else Ok (string_bytes s);
  Sigma.Signature_CalculateRecoveryFactor := fun _ _ _ => Ok 2;
  Sigma.Signature_toCompact := fun s _ _ => Ok (ascii_string s);
  Sigma.Signature_RecoverPublicKey := fun s r _ =>
    if r =? 2 then Ok 7 else Throw "Unable to recover"
|}.

(** A segment with the fields "BSM", "a", the three bytes 1 2 3, "0". *)
Definition short_signature_segment : Sigma.Protocol :=
  Sigma.mkProtocol "SIGMA" [3; 66; 83; 77; 1; 97; 3; 1; 2; 3; 1; 48] 0.

(** A segment with two sub-fields only. *)
Definition truncated_segment : Sigma.Protocol :=
  Sigma.mkProtocol "SIGMA" [3; 66; 83; 77; 1; 97] 7.

(** Every address decodes to the same 20-byte hash. *)
Definition fromBase58Check (address : string) : result (list Z) :=
  Ok (repeat 7 20).

(** The shortest script [Lock.isLock] accepts: the prefix, then the
    suffix. *)
Definition prefix_suffix_script : Script :=
  Script_fromHex (Lock.LOCK_PREFIX ++ Lock.LOCK_SUFFIX).

(** The Lock script of that hash and height 800000. *)
Definition lock_800000 : Script :=
  Script_fromHex Lock.LOCK_PREFIX
    ++ [mkChunk 20 (Some (repeat 7 20))]
    ++ Lock.encodeBlockHeight 800000
    ++ Script_fromHex Lock.LOCK_SUFFIX.

Definition bsm_record : Sigma.SigmaData :=
  Sigma.mkSigmaData (Some 0) "BSM" "1Key7" [7; 1; 2] (Num 0) None.

(** A BSM record whose signature is empty, so that [Signature.fromCompact]
    throws on it. *)
Definition unsigned_record : Sigma.SigmaData :=
  Sigma.mkSigmaData (Some 0) "BSM" "1Key7" [] (Num 0) None.

End Toy.

(* ================================================================== *)
(** * Lock.unlock *)
(* ================================================================== *)

Module LockUnlock.

(** The [signOutputs] parameter, a union of three string literals. *)
Inductive SignOutputs : Type := all | none | single.

Record TransactionOutput : Type := mkOutput {
  satoshis : option Z;
  lockingScript : Script
}.

(** A transaction and its inputs; an input may carry the transaction it
    spends from. *)
Inductive Transaction : Type :=
| mkTransaction (version : Z) (inputs : list TransactionInput)
    (outputs : list TransactionOutput) (lockTime : Z)
with TransactionInput : Type :=
| mkInput (sourceTXID : option string) (sourceTransaction : option Transaction)
    (sourceOutputIndex : Z) (sequence : option Z).

Definition version (tx : Transaction) : Z :=
  match tx with mkTransaction v _ _ _ => v end.
Definition inputs (tx : Transaction) : list TransactionInput :=
  match tx with mkTransaction _ i _ _ => i end.
Definition outputs (tx : Transaction) : list TransactionOutput :=
  match tx with mkTransaction _ _ o _ => o end.
Definition lockTime (tx : Transaction) : Z :=
  match tx with mkTransaction _ _ _ l => l end.

Definition sourceTXID (input : TransactionInput) : option string :=
  match input with mkInput t _ _ _ => t end.
Definition sourceTransaction (input : TransactionInput) : option Transaction :=
  match input with mkInput _ t _ _ => t end.
Definition sourceOutputIndex (input : TransactionInput) : Z :=
  match input with mkInput _ _ i _ => i end.
Definition sequence (input : TransactionInput) : option Z :=
  match input with mkInput _ _ _ s => s end.

(** [array[i]]: [undefined] outside the array. *)
Definition at_index {A : Type} (array : list A) (i : Z) : option A :=
  if i <? 0 then None else nth_error array (Z.to_nat i).

(** [array.filter((_, index) => index !== inputIndex)], from [index] on. *)
Fixpoint filter_other {A : Type} (array : list A) (index inputIndex : Z) : list A :=
  match array with
  | [] => []
  | x :: rest =>
      if index =? inputIndex
      then filter_other rest (index + 1) inputIndex
      else x :: filter_other rest (index + 1) inputIndex
  end.

(** [!sourceTXID]: undefined, or the empty string. *)
Definition falsy (s : option string) : bool :=
  match s with
  | None => true
  | Some id => (String.length id =? 0)%nat
  end.

(** [a ?? b] *)
Definition nullish {A : Type} (a : option A) (b : option A) : option A :=
  match a with
  | Some x => Some x
  | None => b
  end.

(** The argument of [TransactionSignature.format]. *)
Record FormatParams : Type := mkFormatParams {
  fp_sourceTXID : string;
  fp_sourceOutputIndex : Z;
  fp_sourceSatoshis : Z;
  fp_transactionVersion : Z;
  fp_otherInputs : list TransactionInput;
  fp_inputIndex : Z;
  fp_outputs : list TransactionOutput;
  fp_inputSequence : Z;
  fp_subscript : Script;
  fp_lockTime : Z;
  fp_scope : Z
}.

(** The SDK's types, constants and functions [unlock] uses (external
    collaborators); [TransactionSignature_toChecksigFormat rs scope] is
    [new TransactionSignature(rs.r, rs.s, scope).toChecksigFormat()]. *)
Class Collaborators : Type := {
  PrivateKey : Type;
  PublicKey : Type;
  RawSignature : Type;
  SIGHASH_ALL : Z;
  SIGHASH_NONE : Z;
  SIGHASH_SINGLE : Z;
  SIGHASH_FORKID : Z;
  SIGHASH_ANYONECANPAY : Z;
  Transaction_id : Transaction -> result string;
  TransactionSignature_format : FormatParams -> result (list Z);
  Hash_sha256 : list Z -> result (list Z);
  PrivateKey_sign : PrivateKey -> list Z -> result RawSignature;
  TransactionSignature_toChecksigFormat : RawSignature -> Z -> result (list Z);
  PrivateKey_toPublicKey : PrivateKey -> result PublicKey;
  PublicKey_encode : PublicKey -> bool -> result (list Z)
}.

Section WithCollaborators.

Context {sdk : Collaborators}.

(** The scope the first lines of [sign] compute. *)
Definition signatureScope (signOutputs : SignOutputs) (anyoneCanPay : bool) : Z :=
  let scope := SIGHASH_FORKID in
  let scope :=
    match signOutputs with
    | all => JS.bor scope SIGHASH_ALL
    | none => JS.bor scope SIGHASH_NONE
    | single => JS.bor scope SIGHASH_SINGLE
    end in
  if anyoneCanPay then JS.bor scope SIGHASH_ANYONECANPAY else scope.

(** [input.sourceTXID ?? input.sourceTransaction?.id('hex')] *)
Definition resolve_sourceTXID (input : TransactionInput) : result (option string) :=
  match sourceTXID input with
  | Some id => Ok (Some id)
  | None =>
      match sourceTransaction input with
      | Some source => (id <- Transaction_id source ;; Ok (Some id))%result
      | None => Ok None
      end
  end.

(** [input.sourceTransaction?.outputs[input.sourceOutputIndex]] *)
Definition source_output (input : TransactionInput) : option TransactionOutput :=
  match sourceTransaction input with
  | Some source => at_index (outputs source) (sourceOutputIndex input)
  | None => None
  end.

(** The [sign] function of the object [unlock] returns; a rejected promise
    is a [Throw].  The parameters of [unlock] are those the caller passed,
    [None] for one left out. *)
Definition sign (privateKey : PrivateKey) (signOutputs : option SignOutputs)
    (anyoneCanPay : option bool) (sourceSatoshis : option Z)
    (lockingScript : option Script) (tx : Transaction) (inputIndex : Z)
  : result Script :=
  let signOutputs := match signOutputs with Some o => o | None => all end in
  let anyoneCanPay := match anyoneCanPay with Some b => b | None => false end in
  let scope := signatureScope signOutputs anyoneCanPay in
  let otherInputs := filter_other (inputs tx) 0 inputIndex in
  match at_index (inputs tx) inputIndex with
  | None => Throw "TypeError"
  | Some input =>
      (sourceTXID <- resolve_sourceTXID input ;;
       if falsy sourceTXID then
         Throw "The input sourceTXID or sourceTransaction is required for transaction signing."
       else
         let sats :=
           match nullish sourceSatoshis
                   (match source_output input with
                    | Some o => satoshis o
                    | None => None
                    end) with
           | Some v => v
           | None => 0
           end in
         let subscript :=
           match nullish lockingScript
                   (match source_output input with
                    | Some o => Some (LockUnlock.lockingScript o)
                    | None => None
                    end) with
           | Some v => v
           | None => []
           end in
         preimage <- TransactionSignature_format
                       (mkFormatParams
                          (match sourceTXID with Some id => id | None => EmptyString end)
                          (sourceOutputIndex input)
                          sats
                          (version tx)
                          otherInputs
                          inputIndex
                          (outputs tx)
                          (match sequence input with Some q => q | None => 0 end)
                          subscript
                          (lockTime tx)
                          scope) ;;
         digest <- Hash_sha256 preimage ;;
         rawSignature <- PrivateKey_sign privateKey digest ;;
         pubKey <- PrivateKey_toPublicKey privateKey ;;
         sigLength <- TransactionSignature_toChecksigFormat rawSignature scope ;;
         sigData <- TransactionSignature_toChecksigFormat rawSignature scope ;;
         pubData <- PublicKey_encode pubKey true ;;
         Ok [mkChunk (Z.of_nat (length sigLength)) (Some sigData);
             mkChunk 33 (Some pubData)])%result
  end.

(** The [estimateLength] function of the object [unlock] returns. *)
Definition estimateLength : result Z := Ok 108.

End WithCollaborators.

End LockUnlock.

(** Collaborators for [Lock.unlock] on concrete inputs: a key is a number,
    the preimage is the source transaction id's length and the scope, the
    signature is the scope after the key. *)
Module ToyUnlock.

#[local] Instance sdk : LockUnlock.Collaborators := {|
  LockUnlock.PrivateKey := Z;
  LockUnlock.PublicKey := Z;
  LockUnlock.RawSignature := Z;
  LockUnlock.SIGHASH_ALL := 0x01;
  LockUnlock.SIGHASH_NONE := 0x02;
  LockUnlock.SIGHASH_SINGLE := 0x03;
  LockUnlock.SIGHASH_FORKID := 0x40;
  LockUnlock.SIGHASH_ANYONECANPAY := 0x80;
  LockUnlock.Transaction_id := fun _ => Ok "ab"%string;
  LockUnlock.TransactionSignature_format := fun p =>
    Ok [Z.of_nat (String.length (LockUnlock.fp_sourceTXID p)); LockUnlock.fp_scope p];
  LockUnlock.Hash_sha256 := fun bytes => Ok bytes;
  LockUnlock.PrivateKey_sign := fun k _ => Ok k;
  LockUnlock.TransactionSignature_toChecksigFormat := fun rs scope => Ok [rs; scope];
  LockUnlock.PrivateKey_toPublicKey := fun k => Ok k;
  LockUnlock.PublicKey_encode := fun k _ => Ok (repeat k 33)
|}.

(** A spending transaction with one input that names its source by id. *)
Definition spend : LockUnlock.Transaction :=
  LockUnlock.mkTransaction 1
    [LockUnlock.mkInput (Some "ab"%string) None 0 (Some 0)] [] 800000.

(** A spending transaction whose input names no source. *)
Definition orphan_spend : LockUnlock.Transaction :=
  LockUnlock.mkTransaction 1
    [LockUnlock.mkInput None None 0 (Some 0)] [] 800000.

End ToyUnlock.

(** ** Sigma.decodeFromScript *)

Module SigmaScript.

Section WithCollaborators.

Context {sdk : Sigma.Collaborators}.

(** [BitCom.decode(script)]: the segments of a script, [null] when the
    script holds none, or a thrown error (the BitCom template, external to
    these files). *)
Variable BitCom_decode : Script -> result (option Sigma.BitComDecoded).

Definition decodeFromScript (script : Script) : result (list Sigma.SigmaData) :=
  (bitcom <- BitCom_decode script ;;
   match bitcom with
   | None => Ok []
   | Some decoded => Sigma.decode decoded
   end)%result.

End WithCollaborators.

End SigmaScript.

(** Notions the further properties are stated with. *)
Module MoreSpec.

(** Two records that differ at most in their [valid] field. *)
Definition same_but_valid (d1 d2 : Sigma.SigmaData) : Prop :=
  Sigma.bitcomIndex d1 = Sigma.bitcomIndex d2 /\
  Sigma.algorithm d1 = Sigma.algorithm d2 /\
  Sigma.address d1 = Sigma.address d2 /\
  Sigma.signature d1 = Sigma.signature d2 /\
  Sigma.vin d1 = Sigma.vin d2.

(** The records carry segment indices that increase along the list, all at
    least [lo] and below [hi]. *)
Fixpoint increasing_indices (lo hi : Z) (sigmas : list Sigma.SigmaData) : Prop :=
  match sigmas with
  | [] => True
  | r :: rest =>
      exists k, Sigma.bitcomIndex r = Some k /\ lo <= k < hi /\
                increasing_indices (k + 1) hi rest
  end.

(** The number of segments labelled SIGMA. *)
Definition sigma_segments (ps : list Sigma.Protocol) : nat :=
  length (filter (fun p => String.eqb (Sigma.protocol p) Sigma.SIGMA_PREFIX) ps).

(** The error [Lock.unlock]'s [sign] throws when the source is unknown. *)
Definition source_required : string :=
  "The input sourceTXID or sourceTransaction is required for transaction signing.".

End MoreSpec.

(* ================================================================== *)
(** * Properties of the SIGMA template *)
(* ================================================================== *)

Module SigmaFacts.

Import Sigma SigmaSpec.

Section WithCollaborators.

Context {sdk : Collaborators}.

(** *** The verifier *)

Lemma Candidate_dec (d : SigmaData) (m : list Z) (sig : Signature) (r : Z) :
  Candidate d m sig r \/ ~ Candidate d m sig r.
Proof.
  unfold Candidate.
  destruct (BSM_magicHash m) as [magic|e] eqn:Hm;
    [|right; intros (? & ? & ? & H & _); discriminate].
  destruct (BigNumber_new magic) as [bn|e] eqn:Hb;
    [|right; intros (? & ? & ? & H & H' & _); congruence].
  destruct (Signature_RecoverPublicKey sig r bn) as [pk|e] eqn:Hr;
    [|right; intros (? & ? & ? & H & H' & H'' & _); congruence].
  destruct (BSM_verify m sig pk) as [[|]|e] eqn:Hv;
    try (right; intros (? & ? & ? & H & H' & H'' & H3 & _); congruence).
  destruct (PublicKey_toAddress pk) as [a|e] eqn:Ha;
    [|right; intros (? & ? & ? & H & H' & H'' & H3 & H4); congruence].
  destruct (String.eqb_spec a (address d)) as [->|Hne].
  - left. exists magic, bn, pk. auto.
  - right. intros (? & ? & ? & H & H' & H'' & H3 & H4). congruence.
Qed.

(** One recovery factor: a candidate sets the flag and returns [true],
    anything else, a thrown error included, leaves the record as it is
    and falls through. *)
Lemma try_recovery_run (d : SigmaData) (m : list Z) (sig : Signature) (r : Z) :
  (Candidate d m sig r ->
     try_recovery sig m r d = (Ok (Some true), with_valid d true)) /\
  (~ Candidate d m sig r -> try_recovery sig m r d = (Ok None, d)).
Proof.
  unfold Candidate, try_recovery, tryM, bind, call, this_data, set_valid, ret.
  split.
  - intros (magic & bn & pk & -> & -> & -> & -> & ->).
    now rewrite String.eqb_refl.
  - intros Hno.
    destruct (BSM_magicHash m) as [magic|e] eqn:Hm; [|reflexivity].
    destruct (BigNumber_new magic) as [bn|e] eqn:Hb; [|reflexivity].
    destruct (Signature_RecoverPublicKey sig r bn) as [pk|e] eqn:Hr; [|reflexivity].
    destruct (BSM_verify m sig pk) as [[|]|e] eqn:Hv; try reflexivity.
    destruct (PublicKey_toAddress pk) as [a|e] eqn:Ha; [|reflexivity].
    destruct (String.eqb_spec a (address d)) as [->|Hne]; [|reflexivity].
    exfalso. apply Hno. exists magic, bn, pk. auto.
Qed.

(** The search: the first candidate among the factors decides. *)
Lemma for_recovery_run (d : SigmaData) (m : list Z) (sig : Signature)
    (factors : list Z) :
  ((exists r, In r factors /\ Candidate d m sig r) ->
     for_recovery factors sig m d = (Ok (Some true), with_valid d true)) /\
  ((forall r, In r factors -> ~ Candidate d m sig r) ->
     for_recovery factors sig m d = (Ok None, d)).
Proof.
  induction factors as [|r rest [IHyes IHno]]; simpl.
  - split; [intros (r & [] & _) | reflexivity].
  - destruct (try_recovery_run d m sig r) as [Hyes Hno].
    unfold bind. split.
    + intros (r' & Hin & Hc).
      destruct (Candidate_dec d m sig r) as [Hr|Hr].
      * now rewrite (Hyes Hr).
      * rewrite (Hno Hr). apply IHyes.
        destruct Hin as [<-|Hin]; [contradiction|eauto].
    + intros Hall. rewrite (Hno (Hall r (or_introl eq_refl))).
      apply IHno. intros r' Hin. apply Hall. now right.
Qed.

Lemma in_factors (r : Z) : In r [0; 1; 2; 3] <-> 0 <= r <= 3.
Proof. simpl. lia. Qed.

Lemma Recoverable_dec (d : SigmaData) (m : list Z) :
  Recoverable d m \/ ~ Recoverable d m.
Proof.
  unfold Recoverable.
  destruct (Signature_fromCompact (Utils_toBase64 (signature d))) as [sig|e] eqn:Hs;
    [|right; intros (? & ? & H & _); discriminate].
  assert (Hfin : forall l : list Z,
             (exists r, In r l /\ Candidate d m sig r) \/
             (forall r, In r l -> ~ Candidate d m sig r)).
  { induction l as [|r l [IH|IH]].
    - right. intros r [].
    - left. destruct IH as (r' & Hin & Hc). exists r'. split; [now right|assumption].
    - destruct (Candidate_dec d m sig r) as [Hr|Hr].
      + left. exists r. split; [now left|assumption].
      + right. intros r' [<-|Hin]; auto. }
  destruct (Hfin [0; 1; 2; 3]) as [(r & Hin & Hc)|Hno].
  - left. exists sig, r. rewrite <- in_factors. auto.
  - right. intros (sig' & r & Hsig & Hr & Hc).
    assert (sig' = sig) by congruence. subst sig'.
    apply (Hno r); [now apply in_factors|assumption].
Qed.

(** The path of a record whose algorithm is not BRC77. *)
Lemma verifyWithHashes_bsm_run (d : SigmaData) (inputHash dataHash : list Z)
    (key : option PrivateKey) :
  String.eqb (algorithm d) Algorithm_BRC77 = false ->
  (Recoverable d (inputHash ++ dataHash) ->
     verifyWithHashes inputHash dataHash key d = (Ok true, with_valid d true)) /\
  (~ Recoverable d (inputHash ++ dataHash) ->
     verifyWithHashes inputHash dataHash key d = (Ok false, with_valid d false)).
Proof.
  intros Halg.
  assert (Hrun : verifyWithHashes inputHash dataHash key d =
            match Signature_fromCompact (Utils_toBase64 (signature d)) with
            | Ok sig =>
                match for_recovery [0; 1; 2; 3] sig (inputHash ++ dataHash) d with
                | (Ok (Some b), d') => (Ok b, d')
                | (Ok None, d') => (Ok false, with_valid d' false)
                | (Throw _, d') => (Ok false, with_valid d' false)
                end
            | Throw _ => (Ok false, with_valid d false)
            end).
  { unfold verifyWithHashes, tryM, bind at 1, this_data. rewrite Halg.
    unfold bind at 1, call.
    destruct (Signature_fromCompact (Utils_toBase64 (signature d))) as [sig|e];
      [|reflexivity].
    unfold bind.
    destruct (for_recovery [0; 1; 2; 3] sig (inputHash ++ dataHash) d)
      as [[[b|]|e] d']; reflexivity. }
  rewrite Hrun. unfold Recoverable.
  destruct (Signature_fromCompact (Utils_toBase64 (signature d))) as [sig|e] eqn:Hs.
  - destruct (for_recovery_run d (inputHash ++ dataHash) sig [0; 1; 2; 3]) as [Hyes Hno].
    split.
    + intros (sig' & r & Hsig & Hr & Hc).
      assert (sig' = sig) by congruence. subst sig'.
      rewrite Hyes; [reflexivity|].
      exists r. split; [now apply in_factors|assumption].
    + intros Hnone. rewrite Hno; [reflexivity|].
      intros r Hin Hc. apply Hnone. exists sig, r.
      apply in_factors in Hin. auto.
  - split.
    + intros (sig' & r & Hsig & _). discriminate.
    + reflexivity.
Qed.

(** Whatever the algorithm and whatever the collaborators do, the method
    returns a boolean and leaves the record with that boolean as its
    [valid] field and nothing else changed. *)
Lemma verifyWithHashes_run (d : SigmaData) (inputHash dataHash : list Z)
    (key : option PrivateKey) :
  exists b : bool,
    verifyWithHashes inputHash dataHash key d = (Ok b, with_valid d b).
Proof.
  destruct (String.eqb (algorithm d) Algorithm_BRC77) eqn:Halg.
  - unfold verifyWithHashes, tryM, bind at 1, this_data. rewrite Halg.
    unfold bind, call, set_valid, ret.
    destruct (SignedMessage_verify (inputHash ++ dataHash) (signature d) key) as [v|e].
    + now exists v.
    + now exists false.
  - destruct (verifyWithHashes_bsm_run d inputHash dataHash key Halg) as [Hyes Hno].
    destruct (Recoverable_dec d (inputHash ++ dataHash)) as [H|H].
    + exists true. auto.
    + exists false. auto.
Qed.

(** C1: for a BSM record, [verifyWithHashes] returns [true] and sets
    [valid] to [true] if and only if one of the recovery factors 0..3
    yields a key (recovery succeeding) that verifies the signature against
    the message and whose address is the record's; a factor whose recovery
    throws is skipped, and when no factor qualifies the method returns
    [false] with [valid] set to [false]. *)
Theorem verifyWithHashes_bsm_iff (d : SigmaData) (inputHash dataHash : list Z)
    (key : option PrivateKey) :
  algorithm d = Algorithm_BSM ->
  (verifyWithHashes inputHash dataHash key d = (Ok true, with_valid d true)
     <-> Recoverable d (inputHash ++ dataHash)) /\
  (fst (verifyWithHashes inputHash dataHash key d) = Ok true
     <-> Recoverable d (inputHash ++ dataHash)) /\
  (~ Recoverable d (inputHash ++ dataHash) ->
     verifyWithHashes inputHash dataHash key d = (Ok false, with_valid d false)).
Proof.
  intros Hbsm.
  assert (Halg : String.eqb (algorithm d) Algorithm_BRC77 = false)
    by (rewrite Hbsm; reflexivity).
  destruct (verifyWithHashes_bsm_run d inputHash dataHash key Halg) as [Hyes Hno].
  repeat split; auto.
  - intros Hrun. destruct (Recoverable_dec d (inputHash ++ dataHash)) as [H|H]; [assumption|].
    rewrite (Hno H) in Hrun. discriminate.
  - intros Hrun. destruct (Recoverable_dec d (inputHash ++ dataHash)) as [H|H]; [assumption|].
    rewrite (Hno H) in Hrun. discriminate.
  - intros H. now rewrite (Hyes H).
Qed.

(** C6: [verifyWithHashes] never throws: for every record, hashes and
    key, and whatever the collaborators return or throw, it returns a
    boolean and the record's [valid] field is then that boolean.  The
    boolean is [true] exactly when the verification succeeds; whenever it
    does not succeed, in particular when [SignedMessage.verify] or
    [Signature.fromCompact] throws, the method returns [false] and records
    [valid = false]. *)
Theorem verifyWithHashes_never_throws (d : SigmaData) (inputHash dataHash : list Z)
    (key : option PrivateKey) :
  exists (b : bool) (d' : SigmaData),
    verifyWithHashes inputHash dataHash key d = (Ok b, d') /\
    valid d' = Some b /\
    (b = false -> valid d' = Some false) /\
    (b = true <-> Verified d (inputHash ++ dataHash) key) /\
    (~ Verified d (inputHash ++ dataHash) key ->
     verifyWithHashes inputHash dataHash key d = (Ok false, with_valid d false)) /\
    (forall e,
       String.eqb (algorithm d) Algorithm_BRC77 = true ->
       SignedMessage_verify (inputHash ++ dataHash) (signature d) key = Throw e ->
       verifyWithHashes inputHash dataHash key d = (Ok false, with_valid d false)) /\
    (forall e,
       String.eqb (algorithm d) Algorithm_BRC77 = false ->
       Signature_fromCompact (Utils_toBase64 (signature d)) = Throw e ->
       verifyWithHashes inputHash dataHash key d = (Ok false, with_valid d false)).
Proof.
  assert (Hcases :
            (Verified d (inputHash ++ dataHash) key /\
             verifyWithHashes inputHash dataHash key d = (Ok true, with_valid d true)) \/
            (~ Verified d (inputHash ++ dataHash) key /\
             verifyWithHashes inputHash dataHash key d = (Ok false, with_valid d false))).
  { unfold Verified.
    destruct (String.eqb (algorithm d) Algorithm_BRC77) eqn:Halg.
    - assert (Hrun : verifyWithHashes inputHash dataHash key d =
                match SignedMessage_verify (inputHash ++ dataHash) (signature d) key with
                | Ok v => (Ok v, with_valid d v)
                | Throw _ => (Ok false, with_valid d false)
                end).
      { unfold verifyWithHashes, tryM, bind at 1, this_data. rewrite Halg.
        unfold bind, call, set_valid, ret.
        destruct (SignedMessage_verify (inputHash ++ dataHash) (signature d) key);
          reflexivity. }
      rewrite Hrun.
      destruct (SignedMessage_verify (inputHash ++ dataHash) (signature d) key)
        as [[|]|e].
      + left. split; reflexivity.
      + right. split; [discriminate|reflexivity].
      + right. split; [discriminate|reflexivity].
    - destruct (verifyWithHashes_bsm_run d inputHash dataHash key Halg) as [Hyes Hno].
      destruct (Recoverable_dec d (inputHash ++ dataHash)) as [H|H]; auto. }
  assert (Hthrow : forall b d',
            verifyWithHashes inputHash dataHash key d = (Ok b, d') ->
            (b = true <-> Verified d (inputHash ++ dataHash) key) ->
            (forall e,
               String.eqb (algorithm d) Algorithm_BRC77 = true ->
               SignedMessage_verify (inputHash ++ dataHash) (signature d) key = Throw e ->
               ~ Verified d (inputHash ++ dataHash) key) /\
            (forall e,
               String.eqb (algorithm d) Algorithm_BRC77 = false ->
               Signature_fromCompact (Utils_toBase64 (signature d)) = Throw e ->
               ~ Verified d (inputHash ++ dataHash) key)).
  { intros b d' _ _. unfold Verified. split; intros e Halg He; rewrite Halg.
    - rewrite He. discriminate.
    - intros (sig & r & Hsig & _). rewrite He in Hsig. discriminate. }
  destruct Hcases as [[Hv Hrun]|[Hnv Hrun]].
  - exists true, (with_valid d true).
    destruct (Hthrow _ _ Hrun (conj (fun _ => Hv) (fun _ => eq_refl))) as [T1 T2].
    split; [exact Hrun|]. split; [reflexivity|]. split; [discriminate|].
    split; [tauto|]. split; [intros Hn; contradiction|].
    split; intros e Halg He; exfalso; [exact (T1 e Halg He Hv)|exact (T2 e Halg He Hv)].
  - exists false, (with_valid d false).
    split; [exact Hrun|]. split; [reflexivity|]. split; [reflexivity|].
    split; [split; [discriminate|intros Hv; contradiction]|].
    split; [intros _; exact Hrun|].
    split; intros e _ _; exact Hrun.
Qed.

(** C9: [verifyWithHashes] changes the [valid] field only: algorithm,
    address, signature bytes, vin and bitcomIndex of the record are the
    same after the call. *)
Theorem verifyWithHashes_frame (d : SigmaData) (inputHash dataHash : list Z)
    (key : option PrivateKey) :
  let d' := snd (verifyWithHashes inputHash dataHash key d) in
  algorithm d' = algorithm d /\
  address d' = address d /\
  signature d' = signature d /\
  vin d' = vin d /\
  bitcomIndex d' = bitcomIndex d.
Proof.
  destruct (verifyWithHashes_run d inputHash dataHash key) as [b Hb].
  simpl. rewrite Hb. simpl. auto.
Qed.

(** *** The signer *)

(** C8: the record [Sigma.sign] returns has [valid] set to [true], the
    address derived from the private key as its address, the requested
    algorithm (BSM when none is requested) and the requested vin (0 when
    none is requested); and it does return one whenever the
    collaborators it calls on its path return. *)
Theorem sign_record (inputHash dataHash : list Z) (privateKey : PrivateKey)
    (options : SigmaOptions) (r : SigmaData) :
  sign inputHash dataHash privateKey options = Ok r ->
  valid r = Some true /\
  PrivateKey_toAddress privateKey = Ok (address r) /\
  algorithm r = match opt_algorithm options with
                | Some a => a
                | None => Algorithm_BSM
                end /\
  vin r = match opt_vin options with
          | Some v => v
          | None => Num 0
          end.
Proof.
  unfold sign, rbind.
  destruct (PrivateKey_toAddress privateKey) as [addr|e]; [|discriminate].
  match goal with
  | |- match ?sig with Ok _ => _ | Throw _ => _ end = _ -> _ =>
      destruct sig as [sigArray|e]; [|discriminate]
  end.
  intros [= <-]. simpl. auto.
Qed.

(** The signer returns when its collaborators do (BSM path). *)
Lemma sign_returns_bsm (inputHash dataHash : list Z) (privateKey : PrivateKey)
    (options : SigmaOptions) addr sig magic pub bn rf compact :
  String.eqb (match opt_algorithm options with
              | Some a => a
              | None => Algorithm_BSM
              end) Algorithm_BRC77 = false ->
  PrivateKey_toAddress privateKey = Ok addr ->
  BSM_sign (inputHash ++ dataHash) privateKey = Ok sig ->
  BSM_magicHash (inputHash ++ dataHash) = Ok magic ->
  PrivateKey_toPublicKey privateKey = Ok pub ->
  BigNumber_new magic = Ok bn ->
  Signature_CalculateRecoveryFactor sig pub bn = Ok rf ->
  Signature_toCompact sig rf true = Ok compact ->
  exists r, sign inputHash dataHash privateKey options = Ok r /\
            signature r = Utils_toArray_base64 compact.
Proof.
  intros Halg Ha Hs Hm Hp Hb Hr Hc.
  unfold sign, rbind. rewrite Ha, Halg, Hs, Hm, Hp, Hb, Hr, Hc.
  eexists. split; reflexivity.
Qed.

(** *** unlock *)

(** C10: [unlock()] throws for every instance, with the message that
    SIGMA signatures cannot be unlocked; it never returns an unlocking
    template. *)
Theorem unlock_always_throws (T : Type) (this : SigmaData) :
  @unlock T this = Throw "SIGMA signatures cannot be unlocked" /\
  (forall t : T, @unlock T this <> Ok t).
Proof.
  split; [reflexivity|]. intros t. discriminate.
Qed.

(** *** Sigma.decode *)

Lemma chunk_data_nth (chunks : Script) (i : nat) :
  (i < length chunks)%nat ->
  chunk_data chunks i = Ok (payload (nth i chunks (mkChunk 0 None))).
Proof.
  intros Hi. unfold chunk_data.
  destruct (nth_error chunks i) as [c|] eqn:Hn.
  - now rewrite (nth_error_nth _ _ _ Hn).
  - apply nth_error_None in Hn. lia.
Qed.

(** The [try] block of one segment, with its [catch]. *)
Lemma decodeSegment_run (protoIdx : Z) (p : Protocol) :
  String.eqb (protocol p) SIGMA_PREFIX = true ->
  try_catch (decodeSegment protoIdx p) (Ok None) =
  Ok (match segment_records protoIdx p with
      | [] => None
      | r :: _ => Some r
      end)
  /\ (length (segment_records protoIdx p) <= 1)%nat.
Proof.
  intros Hlabel. unfold decodeSegment, segment_records, rbind. rewrite Hlabel.
  destruct (Script_fromBinary (script p)) as [chunks|e]; [|simpl; auto].
  destruct (Nat.ltb_spec (length chunks) 4) as [Hlt|Hge]; [simpl; auto|].
  rewrite !chunk_data_nth by lia. simpl. auto.
Qed.

(** The loop collects, in order, what each segment contributes, and
    does not throw. *)
Lemma decode_loop_run (ps : list Protocol) (protoIdx : Z) (sigmas : list SigmaData) :
  decode_loop ps protoIdx sigmas = Ok (sigmas ++ records_from ps protoIdx).
Proof.
  revert protoIdx sigmas.
  induction ps as [|p rest IH]; intros protoIdx sigmas; simpl.
  - now rewrite app_nil_r.
  - destruct (String.eqb (protocol p) SIGMA_PREFIX) eqn:Hlabel.
    + destruct (decodeSegment_run protoIdx p Hlabel) as [-> Hlen].
      unfold rbind.
      destruct (segment_records protoIdx p) as [|r [|r' l]] eqn:Hseg;
        rewrite IH; simpl in *; try lia.
      * reflexivity.
      * now rewrite <- app_assoc.
    + unfold segment_records. rewrite Hlabel. simpl. apply IH.
Qed.

Lemma decode_run (bitcom : BitComDecoded) :
  decode bitcom = Ok (records_from (protocols bitcom) 0).
Proof.
  unfold decode. destruct (protocols bitcom) as [|p rest] eqn:Hp.
  - reflexivity.
  - simpl length. simpl Nat.eqb. cbv iota. apply decode_loop_run.
Qed.

Lemma records_from_app (a b : list Protocol) (i : Z) :
  records_from (a ++ b) i =
  records_from a i ++ records_from b (i + Z.of_nat (length a)).
Proof.
  revert i. induction a as [|p a IH]; intros i.
  - simpl. now rewrite Z.add_0_r, ?app_nil_l.
  - cbn [records_from app length]. rewrite IH, <- app_assoc.
    do 3 f_equal. lia.
Qed.

Lemma short_segment_records (i : Z) (p : Protocol) :
  short_segment p -> segment_records i p = [].
Proof.
  intros (Hlabel & chunks & Hparse & Hlen).
  unfold segment_records. rewrite Hlabel, String.eqb_refl, Hparse.
  destruct (Nat.ltb_spec (length chunks) 4); [reflexivity|lia].
Qed.

Lemma well_formed_segment_records (i : Z) (p : Protocol) (chunks : Script) :
  well_formed_segment p chunks -> segment_records i p = [record_of i chunks].
Proof.
  intros (Hlabel & Hparse & Hlen).
  unfold segment_records. rewrite Hlabel, String.eqb_refl, Hparse.
  destruct (Nat.ltb_spec (length chunks) 4); [lia|reflexivity].
Qed.

(** Where a decoded record comes from. *)
Lemma records_from_In (ps : list Protocol) (i : Z) (r : SigmaData) :
  In r (records_from ps i) ->
  exists (k : nat) (p : Protocol) (chunks : Script),
    nth_error ps k = Some p /\
    well_formed_segment p chunks /\
    r = record_of (i + Z.of_nat k) chunks.
Proof.
  revert i. induction ps as [|p rest IH]; intros i; simpl; [intros []|].
  rewrite in_app_iff. intros [Hin|Hin].
  - unfold segment_records in Hin.
    destruct (String.eqb_spec (protocol p) SIGMA_PREFIX) as [Hlabel|]; [|destruct Hin].
    destruct (Script_fromBinary (script p)) as [chunks|e] eqn:Hparse; [|destruct Hin].
    destruct (Nat.ltb_spec (length chunks) 4) as [|Hge]; [destruct Hin|].
    destruct Hin as [<-|[]].
    exists 0%nat, p, chunks.
    split; [reflexivity|split; [now repeat split|]].
    now rewrite Z.add_0_r.
  - destruct (IH _ Hin) as (k & p' & chunks & Hnth & Hwf & ->).
    exists (S k), p', chunks.
    split; [assumption|split; [assumption|]].
    replace (i + Z.of_nat (S k)) with (i + 1 + Z.of_nat k) by lia.
    reflexivity.
Qed.

(** C5: [Sigma.decode] never throws; a SIGMA segment that parses to
    fewer than four sub-fields contributes nothing and the segments
    before and after it are decoded as if it held no record; a script
    with one well-formed segment and one short segment, in either order,
    yields exactly the record of the well-formed one. *)
Theorem decode_skips_short_segments :
  (forall bitcom, exists sigmas, decode bitcom = Ok sigmas) /\
  (forall before p after,
     short_segment p ->
     decode (mkBitComDecoded (before ++ p :: after)) =
     Ok (records_from before 0
           ++ records_from after (Z.of_nat (length before) + 1))) /\
  (forall p sigmas i rest,
     short_segment p ->
     decode_loop (p :: rest) i sigmas = decode_loop rest (i + 1) sigmas) /\
  (forall good chunks bad,
     well_formed_segment good chunks ->
     short_segment bad ->
     decode (mkBitComDecoded [good; bad]) = Ok [record_of 0 chunks] /\
     decode (mkBitComDecoded [bad; good]) = Ok [record_of 1 chunks]).
Proof.
  split; [|split; [|split]].
  - intros bitcom. eexists. apply decode_run.
  - intros before p after Hshort.
    rewrite decode_run. cbn [protocols].
    rewrite records_from_app. cbn [records_from].
    rewrite (short_segment_records _ _ Hshort). simpl.
    repeat f_equal; lia.
  - intros p sigmas i rest Hshort.
    rewrite !decode_loop_run. cbn [records_from].
    now rewrite (short_segment_records _ _ Hshort).
  - intros good chunks bad Hgood Hbad.
    rewrite !decode_run. cbn [protocols records_from].
    rewrite !(short_segment_records _ _ Hbad).
    rewrite !(well_formed_segment_records _ _ _ Hgood).
    split; reflexivity.
Qed.

(** C4 (amended): the signature bytes of a decoded record are the
    payload of the third sub-field of the segment it was decoded from,
    whatever the algorithm; they are 65 bytes long exactly when that
    sub-field carries 65 bytes. *)
Theorem decode_signature_is_third_field (bitcom : BitComDecoded)
    (sigmas : list SigmaData) (r : SigmaData) :
  decode bitcom = Ok sigmas ->
  In r sigmas ->
  exists (k : nat) (p : Protocol) (chunks : Script),
    nth_error (protocols bitcom) k = Some p /\
    well_formed_segment p chunks /\
    bitcomIndex r = Some (Z.of_nat k) /\
    signature r = payload (nth 2 chunks (mkChunk 0 None)) /\
    (length (signature r) = 65%nat <->
     length (payload (nth 2 chunks (mkChunk 0 None))) = 65%nat).
Proof.
  rewrite decode_run. intros [= <-] Hin.
  destruct (records_from_In _ _ _ Hin) as (k & p & chunks & Hnth & Hwf & ->).
  exists k, p, chunks.
  split; [assumption|split; [assumption|]].
  cbn [bitcomIndex signature record_of]. rewrite Z.add_0_l.
  repeat split; auto.
Qed.

End WithCollaborators.

End SigmaFacts.

(** ** The theorems at the toy collaborators *)

Module SigmaExamples.

(** C4, as stated, fails: a BSM record decoded from a segment whose third
    sub-field has three bytes has a three-byte signature. *)
Lemma decode_bsm_signature_not_65 :
  ~ (forall (bitcom : Sigma.BitComDecoded) (sigmas : list Sigma.SigmaData)
            (r : Sigma.SigmaData),
       Sigma.decode (sdk := Toy.sdk) bitcom = Ok sigmas ->
       In r sigmas ->
       Sigma.algorithm r = Sigma.Algorithm_BSM ->
       length (Sigma.signature r) = 65%nat).
Proof.
  intros H.
  specialize (H (Sigma.mkBitComDecoded [Toy.short_signature_segment])
                _ _ eq_refl (or_introl eq_refl) eq_refl).
  discriminate H.
Qed.

Lemma decode_signature_is_third_field_witness :
  exists (k : nat) (p : Sigma.Protocol) (chunks : Script),
    nth_error [Toy.short_signature_segment] k = Some p /\
    SigmaSpec.well_formed_segment (sdk := Toy.sdk) p chunks /\
    Some 0 = Some (Z.of_nat k) /\
    [1; 2; 3] = SigmaSpec.payload (nth 2 chunks (mkChunk 0 None)) /\
    (3%nat = 65%nat <->
     length (SigmaSpec.payload (nth 2 chunks (mkChunk 0 None))) = 65%nat).
Proof.
  exact (SigmaFacts.decode_signature_is_third_field (sdk := Toy.sdk)
           (Sigma.mkBitComDecoded [Toy.short_signature_segment]) _ _
           eq_refl (or_introl eq_refl)).
Defined.

Lemma verifyWithHashes_bsm_iff_witness :
  (Sigma.verifyWithHashes (sdk := Toy.sdk) [1] [2] None Toy.bsm_record
     = (Ok true, Sigma.with_valid Toy.bsm_record true)
   <-> SigmaSpec.Recoverable (sdk := Toy.sdk) Toy.bsm_record ([1] ++ [2])) /\
  (fst (Sigma.verifyWithHashes (sdk := Toy.sdk) [1] [2] None Toy.bsm_record) = Ok true
   <-> SigmaSpec.Recoverable (sdk := Toy.sdk) Toy.bsm_record ([1] ++ [2])) /\
  (~ SigmaSpec.Recoverable (sdk := Toy.sdk) Toy.bsm_record ([1] ++ [2]) ->
   Sigma.verifyWithHashes (sdk := Toy.sdk) [1] [2] None Toy.bsm_record
     = (Ok false, Sigma.with_valid Toy.bsm_record false)).
Proof.
  exact (SigmaFacts.verifyWithHashes_bsm_iff (sdk := Toy.sdk)
           Toy.bsm_record [1] [2] None eq_refl).
Defined.

Lemma verifyWithHashes_never_throws_witness :
  exists (b : bool) (d' : Sigma.SigmaData),
    Sigma.verifyWithHashes (sdk := Toy.sdk) [1] [2] None Toy.unsigned_record = (Ok b, d') /\
    Sigma.valid d' = Some b /\
    Sigma.verifyWithHashes (sdk := Toy.sdk) [1] [2] None Toy.unsigned_record
      = (Ok false, Sigma.with_valid Toy.unsigned_record false).
Proof.
  destruct (SigmaFacts.verifyWithHashes_never_throws (sdk := Toy.sdk)
              Toy.unsigned_record [1] [2] None)
    as (b & d' & Hrun & Hvalid & _ & _ & _ & _ & Hcompact).
  exists b, d'. split; [exact Hrun|]. split; [exact Hvalid|].
  exact (Hcompact "Invalid Compact Signature"%string eq_refl eq_refl).
Defined.

Lemma sign_record_witness :
  let r := Sigma.mkSigmaData None "BSM" "1Key7" [7; 1; 2] (Num 0) (Some true) in
  Sigma.valid r = Some true /\
  Sigma.PrivateKey_toAddress (Collaborators := Toy.sdk) 7 = Ok (Sigma.address r) /\
  Sigma.algorithm r = Sigma.Algorithm_BSM /\
  Sigma.vin r = Num 0.
Proof.
  exact (SigmaFacts.sign_record (sdk := Toy.sdk) [1] [2] 7
           (Sigma.mkSigmaOptions None None None) _ eq_refl).
Defined.

Lemma decode_skips_short_segments_witness :
  Sigma.decode (sdk := Toy.sdk)
    (Sigma.mkBitComDecoded [Toy.short_signature_segment; Toy.truncated_segment])
  = Ok [SigmaSpec.record_of (sdk := Toy.sdk) 0
          (Script_fromBinary (Sigma.script Toy.short_signature_segment))] /\
  Sigma.decode (sdk := Toy.sdk)
    (Sigma.mkBitComDecoded [Toy.truncated_segment; Toy.short_signature_segment])
  = Ok [SigmaSpec.record_of (sdk := Toy.sdk) 1
          (Script_fromBinary (Sigma.script Toy.short_signature_segment))].
Proof.
  refine (proj2 (proj2 (proj2 (SigmaFacts.decode_skips_short_segments (sdk := Toy.sdk))))
            Toy.short_signature_segment _ Toy.truncated_segment _ _).
  - repeat split. simpl. lia.
  - split; [reflexivity|]. eexists. split; [reflexivity|]. simpl. lia.
Defined.

End SigmaExamples.

(* ================================================================== *)
(** * Properties of the Lock template *)
(* ================================================================== *)

Module LockFacts.

Import Lock LockSpec.

Ltac zdiv := Z.div_mod_to_equations; lia.

(** ** 32-bit operators on small values *)

Lemma ToInt32_small (x : Z) : - 2 ^ 31 <= x < 2 ^ 31 -> JS.ToInt32 x = x.
Proof. intros H. unfold JS.ToInt32. rewrite Z.mod_small; lia. Qed.

Lemma ToInt32_range (x : Z) : - 2 ^ 31 <= JS.ToInt32 x < 2 ^ 31.
Proof. unfold JS.ToInt32. zdiv. Qed.

Lemma band_0xff (m : Z) : 0 <= m < 2 ^ 31 -> JS.band m 0xff = m mod 256.
Proof.
  intros H. unfold JS.band. rewrite !ToInt32_small by lia.
  change 255 with (Z.ones 8). rewrite Z.land_ones by lia. reflexivity.
Qed.

Lemma sar_8 (m : Z) : - 2 ^ 31 <= m < 2 ^ 31 -> JS.sar m 8 = m / 256.
Proof.
  intros H. unfold JS.sar. rewrite ToInt32_small by lia.
  change (8 mod 32) with 8. now rewrite Z.shiftr_div_pow2 by lia.
Qed.

(** ** The bytes of a magnitude *)

Lemma le_bytes_byte (k : nat) (m : Z) : Forall byte (le_bytes k m).
Proof.
  revert m. induction k as [|k IH]; intros m; simpl; [constructor|].
  destruct (m =? 0); constructor; [unfold byte; zdiv | apply IH].
Qed.

Lemma le_bytes_length (k : nat) (m : Z) : (length (le_bytes k m) <= k)%nat.
Proof.
  revert m. induction k as [|k IH]; intros m; simpl; [lia|].
  destruct (m =? 0); simpl; [lia|]. specialize (IH (m / 256)). lia.
Qed.

Lemma pow256_S (k : nat) : 256 ^ Z.of_nat (S k) = 256 * 256 ^ Z.of_nat k.
Proof. rewrite Nat2Z.inj_succ, Z.pow_succ_r by lia. reflexivity. Qed.

Lemma pow256_pos (k : nat) : 0 < 256 ^ Z.of_nat k.
Proof. apply Z.pow_pos_nonneg; lia. Qed.

Lemma le_bytes_value (k : nat) (m : Z) :
  0 <= m < 256 ^ Z.of_nat k -> readLE (le_bytes k m) = m.
Proof.
  revert m. induction k as [|k IH]; intros m Hm.
  - simpl in *. lia.
  - rewrite pow256_S in Hm. cbn [le_bytes].
    destruct (Z.eqb_spec m 0) as [->|Hne]; [reflexivity|].
    cbn [readLE]. rewrite IH by zdiv. zdiv.
Qed.

Lemma le_bytes_fuel (k k' : nat) (m : Z) :
  0 <= m < 256 ^ Z.of_nat k -> 0 <= m < 256 ^ Z.of_nat k' ->
  le_bytes k m = le_bytes k' m.
Proof.
  revert k' m. induction k as [|k IH]; intros k' m Hk Hk'.
  - simpl in Hk. assert (m = 0) by lia. subst m.
    destruct k'; reflexivity.
  - destruct k' as [|k'].
    + simpl in Hk'. assert (m = 0) by lia. subst m. reflexivity.
    + rewrite pow256_S in Hk, Hk'. simpl.
      destruct (m =? 0); [reflexivity|].
      f_equal. apply IH; zdiv.
Qed.

Lemma le_bytes_nonempty (k : nat) (m : Z) :
  m <> 0 -> le_bytes (S k) m <> [].
Proof.
  intros Hm. simpl. destruct (Z.eqb_spec m 0); [contradiction|discriminate].
Qed.

(** The bytes are minimal: the top byte of a positive magnitude is not 0. *)
Lemma le_bytes_top (k : nat) (m : Z) :
  0 < m < 256 ^ Z.of_nat k -> last (le_bytes k m) 0 <> 0.
Proof.
  revert m. induction k as [|k IH]; intros m Hm.
  - simpl in Hm. lia.
  - rewrite pow256_S in Hm. cbn [le_bytes].
    destruct (Z.eqb_spec m 0) as [->|Hne]; [lia|].
    destruct (Z.eq_dec (m / 256) 0) as [Hz|Hnz].
    + rewrite Hz. destruct k; simpl; zdiv.
    + specialize (IH (m / 256) ltac:(zdiv)).
      destruct (le_bytes k (m / 256)) as [|b l] eqn:Hl.
      * destruct k; simpl in Hl.
        -- simpl in Hm. zdiv.
        -- destruct (Z.eqb_spec (m / 256) 0); [contradiction|discriminate].
      * exact IH.
Qed.

Lemma le_magnitude_fuel (m : Z) (k : nat) :
  0 < m < 256 ^ Z.of_nat k -> le_magnitude m = le_bytes k m.
Proof.
  intros Hm. unfold le_magnitude. apply le_bytes_fuel; [|lia].
  split; [lia|].
  destruct (Z.log2_spec m ltac:(lia)) as [_ Hlt].
  pose proof (Z.log2_nonneg m) as Hnn.
  eapply Z.lt_le_trans; [exact Hlt|].
  rewrite Nat2Z.inj_succ, Z2Nat.id by lia.
  change 256 with (2 ^ 8). rewrite <- Z.pow_mul_r by lia.
  apply Z.pow_le_mono_r; lia.
Qed.

(** The specification's bytes are the number: they are bytes, their value
    is the magnitude, and none is superfluous. *)
Lemma le_magnitude_sound (m : Z) :
  0 < m ->
  Forall byte (le_magnitude m) /\
  readLE (le_magnitude m) = m /\
  last (le_magnitude m) 0 <> 0.
Proof.
  intros Hm.
  assert (Hb : 0 < m < 256 ^ Z.of_nat (S (Z.to_nat (Z.log2 m)))).
  { split; [lia|].
    destruct (Z.log2_spec m Hm) as [_ Hlt].
    pose proof (Z.log2_nonneg m) as Hnn.
    eapply Z.lt_le_trans; [exact Hlt|].
    rewrite Nat2Z.inj_succ, Z2Nat.id by lia.
    change 256 with (2 ^ 8). rewrite <- Z.pow_mul_r by lia.
    apply Z.pow_le_mono_r; lia. }
  unfold le_magnitude. repeat split.
  - apply le_bytes_byte.
  - apply le_bytes_value. lia.
  - apply le_bytes_top. exact Hb.
Qed.

(** ** The encoder's loop *)

Lemma while_push_le (fuel : nat) (m : Z) (acc : list Z) :
  0 <= m < 2 ^ 31 -> m < 256 ^ Z.of_nat fuel ->
  while_push fuel m acc = (0, acc ++ le_bytes fuel m).
Proof.
  revert m acc. induction fuel as [|fuel IH]; intros m acc Hm Hk.
  - simpl in *. assert (m = 0) by lia. subst. now rewrite app_nil_r.
  - rewrite pow256_S in Hk. cbn [while_push le_bytes].
    destruct (Z.gtb_spec m 0) as [Hpos|Hle].
    + destruct (Z.eqb_spec m 0) as [->|_]; [lia|].
      rewrite sar_8, band_0xff by lia.
      rewrite IH by zdiv. now rewrite <- app_assoc.
    + assert (m = 0) by lia. subst. simpl. now rewrite app_nil_r.
Qed.

Lemma while_push_step (fuel : nat) (n : Z) (acc : list Z) :
  while_push (S fuel) n acc =
  if n >? 0 then while_push fuel (JS.sar n 8) (acc ++ [JS.band n 0xff]) else (n, acc).
Proof. reflexivity. Qed.

(** The loop ends because its condition fails, whatever the number: four
    rounds are enough. *)
Lemma while_push_exits (n : Z) : fst (while_push while_fuel n []) <= 0.
Proof.
  unfold while_fuel. rewrite while_push_step.
  destruct (Z.gtb_spec n 0) as [Hpos|Hle]; [|simpl; lia].
  pose proof (ToInt32_range n) as Hr.
  assert (Hs : JS.sar n 8 = JS.ToInt32 n / 256).
  { unfold JS.sar. change (8 mod 32) with 8. now rewrite Z.shiftr_div_pow2 by lia. }
  destruct (Z_lt_le_dec (JS.sar n 8) 0) as [Hneg|Hnn].
  - rewrite while_push_step.
    destruct (Z.gtb_spec (JS.sar n 8) 0); [lia|]. simpl. lia.
  - rewrite while_push_le; [simpl; lia| |]; rewrite Hs; simpl; zdiv.
Qed.

(** ** Bytes *)

(** A property checked on the 256 bytes holds of every byte. *)
Lemma byte_forall (P : Z -> bool) :
  forallb P (map Z.of_nat (seq 0 256)) = true ->
  forall t, byte t -> P t = true.
Proof.
  intros H t Ht. rewrite forallb_forall in H. apply H.
  apply in_map_iff. exists (Z.to_nat t). unfold byte in Ht.
  split; [lia|apply in_seq; lia].
Qed.

Lemma byte_high_bit (t : Z) :
  byte t -> negb (JS.band t 0x80 =? 0) = high_bit_set t.
Proof.
  intros Ht.
  apply Bool.eqb_prop.
  apply (byte_forall (fun t => Bool.eqb (negb (JS.band t 0x80 =? 0)) (high_bit_set t)));
    [vm_compute; reflexivity|assumption].
Qed.

Lemma byte_high_bit_ge (t : Z) :
  byte t -> high_bit_set t = (128 <=? t).
Proof.
  intros Ht.
  apply Bool.eqb_prop.
  apply (byte_forall (fun t => Bool.eqb (high_bit_set t) (128 <=? t)));
    [vm_compute; reflexivity|assumption].
Qed.

Lemma byte_set_high_bit (t : Z) :
  byte t -> JS.bor t 0x80 = set_high_bit t.
Proof.
  intros Ht. unfold JS.bor, set_high_bit, byte in *.
  rewrite !ToInt32_small by lia. reflexivity.
Qed.

Lemma byte_set_high_bit_add (t : Z) :
  byte t -> t < 128 -> set_high_bit t = t + 128.
Proof.
  intros Ht Hlt.
  assert (H : (t <? 128) && negb (set_high_bit t =? t + 128) = false).
  { apply Bool.not_true_is_false. intros Habs.
    assert (Hall : negb ((t <? 128) && negb (set_high_bit t =? t + 128)) = true).
    { apply (byte_forall
               (fun t => negb ((t <? 128) && negb (set_high_bit t =? t + 128))));
        [vm_compute; reflexivity|assumption]. }
    rewrite Habs in Hall. discriminate. }
  destruct (Z.ltb_spec t 128); [|lia].
  destruct (Z.eqb_spec (set_high_bit t) (t + 128)); [assumption|discriminate].
Qed.

Lemma last_byte (l : list Z) : Forall byte l -> byte (last l 0).
Proof.
  induction 1 as [|b l Hb Hl IH]; [unfold byte; simpl; lia|].
  destruct l; [exact Hb|exact IH].
Qed.

(** ** The encoder against the specification's words *)

Lemma encode_payload (m : Z) :
  0 < m < 2 ^ 31 -> snd (while_push while_fuel m []) = le_magnitude m.
Proof.
  intros Hm. unfold while_fuel.
  rewrite while_push_le by (simpl; lia).
  rewrite (le_magnitude_fuel m 4) by (simpl; lia). reflexivity.
Qed.

(** The encoder is the specification's, with opcode 0 for zero, on the
    numbers whose magnitude fits 31 bits. *)
Lemma encode_refines (n : Z) :
  - 2 ^ 31 < n < 2 ^ 31 -> encodeBlockHeight n = spec_encode 0x00 n.
Proof.
  intros Hn. unfold encodeBlockHeight, spec_encode.
  destruct (Z.eqb_spec n 0) as [->|Hn0]; [reflexivity|].
  rewrite Z.geb_leb.
  destruct ((1 <=? n) && (n <=? 16)); [reflexivity|].
  destruct (Z.eqb_spec n (-1)) as [->|Hn1]; [reflexivity|].
  assert (Hmag : (if n <? 0 then - n else n) = Z.abs n)
    by (destruct (Z.ltb_spec n 0); lia).
  cbv zeta. rewrite Hmag.
  assert (Habs : 0 < Z.abs n < 2 ^ 31) by lia.
  assert (Hpay : (if negb (JS.band (top (snd (while_push while_fuel (Z.abs n) []))) 0x80 =? 0)
                  then snd (while_push while_fuel (Z.abs n) [])
                         ++ [if n <? 0 then 0x80 else 0x00]
                  else if n <? 0
                       then or_top (snd (while_push while_fuel (Z.abs n) [])) 0x80
                       else snd (while_push while_fuel (Z.abs n) []))
                 = spec_payload n).
  { rewrite encode_payload by assumption. unfold spec_payload, top.
    destruct (le_magnitude_sound (Z.abs n)) as (Hbytes & _ & _); [lia|].
    pose proof (last_byte _ Hbytes) as Htop.
    rewrite byte_high_bit by assumption.
    destruct (high_bit_set (last (le_magnitude (Z.abs n)) 0)) eqn:Hhigh.
    - destruct (n <? 0); [|reflexivity].
      now rewrite removelast_last, last_last.
    - destruct (n <? 0); [|reflexivity].
      unfold or_top, top.
      destruct (le_magnitude (Z.abs n)) as [|b l] eqn:Hl.
      + exfalso. rewrite (le_magnitude_fuel _ 4) in Hl by (simpl; lia).
        revert Hl. apply le_bytes_nonempty. lia.
      + now rewrite byte_set_high_bit by assumption. }
  rewrite Hpay. reflexivity.
Qed.

(** ** The decoder's arithmetic *)

Lemma land_disjoint (k a b : Z) :
  0 <= k -> 0 <= a < 2 ^ k -> Z.land a (b * 2 ^ k) = 0.
Proof.
  intros Hk Ha. apply Z.bits_inj'. intros n Hn.
  rewrite Z.land_spec, Z.bits_0.
  destruct (Z.lt_ge_cases n k) as [Hlt|Hge].
  - rewrite Z.mul_pow2_bits_low by lia. apply andb_false_r.
  - replace a with (a mod 2 ^ k) by (apply Z.mod_small; lia).
    rewrite Z.mod_pow2_bits_high by lia. reflexivity.
Qed.

Lemma lor_disjoint (k a b : Z) :
  0 <= k -> 0 <= a < 2 ^ k -> Z.lor a (b * 2 ^ k) = a + b * 2 ^ k.
Proof.
  intros Hk Ha. pose proof (land_disjoint k a b Hk Ha) as Hd.
  rewrite <- Z.lxor_lor by assumption.
  symmetry. now apply Z.add_nocarry_lxor.
Qed.

(** Clearing a bit that is set, the lower bits being [x]. *)
Lemma land_clear_bit (k x : Z) :
  0 <= k -> 0 <= x < 2 ^ k -> Z.land (x + 2 ^ k) (Z.lnot (2 ^ k)) = x.
Proof.
  intros Hk Hx.
  pose proof (land_disjoint k x 1 Hk Hx) as Hd. rewrite Z.mul_1_l in Hd.
  rewrite (Z.add_nocarry_lxor _ _ Hd), (Z.lxor_lor _ _ Hd).
  apply Z.bits_inj'. intros n Hn.
  rewrite Z.land_spec, Z.lor_spec, Z.lnot_spec by lia.
  assert (Hbit : Z.testbit x n && Z.testbit (2 ^ k) n = false).
  { rewrite <- Z.land_spec, Hd. apply Z.bits_0. }
  destruct (Z.testbit x n), (Z.testbit (2 ^ k) n); simpl in *; congruence.
Qed.

(** One round of the decoder's loop: no bit of the byte meets the bits
    already there, only the fourth byte can reach the sign bit. *)
Lemma bor_shl (i v b : Z) :
  0 <= i <= 3 -> 0 <= v < 2 ^ (8 * i) -> byte b ->
  JS.bor (JS.ToInt32 v) (JS.shl b (8 * i)) = JS.ToInt32 (v + b * 2 ^ (8 * i)).
Proof.
  intros Hi Hv Hb. unfold byte in Hb.
  assert (Hpow : 2 ^ (8 * i) <= 2 ^ 24) by (apply Z.pow_le_mono_r; lia).
  unfold JS.bor, JS.shl.
  rewrite (ToInt32_small v), (ToInt32_small v), (ToInt32_small b) by lia.
  rewrite Z.mod_small by lia.
  rewrite Z.shiftl_mul_pow2 by lia.
  assert (Hwrap : exists c, JS.ToInt32 (b * 2 ^ (8 * i)) = (b - 256 * c) * 2 ^ (8 * i)
                            /\ JS.ToInt32 (v + b * 2 ^ (8 * i))
                               = v + (b - 256 * c) * 2 ^ (8 * i)).
  { assert (Hcase : i = 0 \/ i = 1 \/ i = 2 \/ i = 3) by lia.
    destruct Hcase as [-> | [-> | [-> | ->]]].
    - exists 0. change (2 ^ (8 * 0)) with 1 in *.
      rewrite !ToInt32_small by lia. lia.
    - exists 0. change (2 ^ (8 * 1)) with 256 in *.
      rewrite !ToInt32_small by lia. lia.
    - exists 0. change (2 ^ (8 * 2)) with 65536 in *.
      rewrite !ToInt32_small by lia. lia.
    - change (2 ^ (8 * 3)) with 16777216 in *.
      destruct (Z_lt_le_dec b 128).
      + exists 0. rewrite !ToInt32_small by lia. lia.
      + exists 1. unfold JS.ToInt32. split; zdiv. }
  destruct Hwrap as (c & Hc1 & Hc2).
  rewrite Hc2. rewrite (ToInt32_small (JS.ToInt32 _)) by apply ToInt32_range.
  rewrite Hc1. apply lor_disjoint; lia.
Qed.

Lemma or_loop_sum (bs : list Z) (i v : Z) :
  Forall byte bs -> 0 <= i -> i + Z.of_nat (length bs) <= 4 ->
  0 <= v < 2 ^ (8 * i) ->
  or_loop bs i (JS.ToInt32 v) = JS.ToInt32 (v + 2 ^ (8 * i) * readLE bs).
Proof.
  intros Hbs. revert i v.
  induction Hbs as [|b rest Hb Hrest IH]; intros i v Hi Hlen Hv.
  - simpl. f_equal. lia.
  - cbn [or_loop readLE length] in *.
    rewrite bor_shl by (try assumption; lia).
    assert (Hnext : 2 ^ (8 * (i + 1)) = 256 * 2 ^ (8 * i)).
    { replace (8 * (i + 1)) with (8 + 8 * i) by lia.
      rewrite Z.pow_add_r by lia. reflexivity. }
    unfold byte in Hb.
    rewrite IH by (rewrite ?Hnext; nia).
    f_equal. rewrite Hnext. ring.
Qed.

Lemma or_loop_value (bs : list Z) :
  Forall byte bs -> (length bs <= 4)%nat ->
  or_loop bs 0 0 = JS.ToInt32 (readLE bs).
Proof.
  intros Hbs Hlen.
  change 0 with (JS.ToInt32 0) at 2.
  rewrite or_loop_sum by (simpl; try assumption; lia).
  f_equal. change (2 ^ (8 * 0)) with 1. lia.
Qed.

(** Clearing the sign bit of a payload of [j + 1] bytes. *)
Lemma clear_sign (j R : Z) :
  0 <= j <= 3 -> 2 ^ (8 * j + 7) <= R < 2 ^ (8 * j + 8) ->
  JS.band (JS.ToInt32 R) (JS.bnot (JS.shl 0x80 (8 * j))) = R - 2 ^ (8 * j + 7).
Proof.
  intros Hj HR.
  assert (Hcase : j = 0 \/ j = 1 \/ j = 2 \/ j = 3) by lia.
  unfold JS.band.
  rewrite (ToInt32_small (JS.ToInt32 R)) by apply ToInt32_range.
  destruct Hcase as [-> | [-> | [-> | ->]]].
  - change (JS.ToInt32 (JS.bnot (JS.shl 128 (8 * 0)))) with (Z.lnot (2 ^ 7)).
    change (8 * 0 + 7) with 7 in *. change (8 * 0 + 8) with 8 in HR.
    rewrite ToInt32_small by lia.
    replace R with ((R - 2 ^ 7) + 2 ^ 7) at 1 by ring.
    apply land_clear_bit; lia.
  - change (JS.ToInt32 (JS.bnot (JS.shl 128 (8 * 1)))) with (Z.lnot (2 ^ 15)).
    change (8 * 1 + 7) with 15 in *. change (8 * 1 + 8) with 16 in HR.
    rewrite ToInt32_small by lia.
    replace R with ((R - 2 ^ 15) + 2 ^ 15) at 1 by ring.
    apply land_clear_bit; lia.
  - change (JS.ToInt32 (JS.bnot (JS.shl 128 (8 * 2)))) with (Z.lnot (2 ^ 23)).
    change (8 * 2 + 7) with 23 in *. change (8 * 2 + 8) with 24 in HR.
    rewrite ToInt32_small by lia.
    replace R with ((R - 2 ^ 23) + 2 ^ 23) at 1 by ring.
    apply land_clear_bit; lia.
  - change (JS.ToInt32 (JS.bnot (JS.shl 128 (8 * 3)))) with (Z.ones 31).
    change (8 * 3 + 7) with 31 in *. change (8 * 3 + 8) with 32 in HR.
    rewrite Z.land_ones by lia. unfold JS.ToInt32. zdiv.
Qed.

Lemma readLE_app (a b : list Z) :
  readLE (a ++ b) = readLE a + 256 ^ Z.of_nat (length a) * readLE b.
Proof.
  induction a as [|x a IH].
  - cbn [app readLE length]. change (256 ^ Z.of_nat 0) with 1. lia.
  - cbn [app readLE length]. rewrite IH, pow256_S. ring.
Qed.

Lemma readLE_bound (bs : list Z) :
  Forall byte bs -> 0 <= readLE bs < 256 ^ Z.of_nat (length bs).
Proof.
  induction 1 as [|b bs Hb Hbs IH]; [simpl; lia|].
  cbn [readLE length]. rewrite pow256_S. unfold byte in Hb. lia.
Qed.

(** The number of a payload of one to four bytes: the little-endian value,
    or, when the top byte has its high bit set, minus the value without
    that bit. *)
Lemma scriptNum_value (bs : list Z) :
  Forall byte bs -> (1 <= length bs <= 4)%nat ->
  scriptNum bs =
  if 128 <=? top bs
  then - (readLE bs - 128 * 256 ^ (Z.of_nat (length bs) - 1))
  else readLE bs.
Proof.
  intros Hbs Hlen.
  assert (Hne : bs <> []) by (destruct bs; [simpl in Hlen; lia|discriminate]).
  pose proof (last_byte _ Hbs) as Htop. fold (top bs) in Htop.
  unfold scriptNum.
  rewrite or_loop_value by (try assumption; lia).
  rewrite byte_high_bit, byte_high_bit_ge by assumption.
  assert (Hinit : Forall byte (removelast bs)).
  { rewrite (app_removelast_last 0 Hne) in Hbs.
    apply Forall_app in Hbs. tauto. }
  pose proof (readLE_bound _ Hinit) as Hb.
  assert (Hl : Z.of_nat (length (removelast bs)) = Z.of_nat (length bs) - 1).
  { rewrite (app_removelast_last 0 Hne) at 2. rewrite length_app. simpl. lia. }
  set (j := Z.of_nat (length bs) - 1) in *.
  assert (Hj : 0 <= j <= 3) by lia.
  assert (Hval : readLE bs = readLE (removelast bs) + 256 ^ j * top bs).
  { rewrite (app_removelast_last 0 Hne) at 1. rewrite readLE_app, Hl.
    cbn [readLE]. unfold top. ring. }
  rewrite Hl in Hb. clear Hl.
  assert (Hp : 256 ^ j = 2 ^ (8 * j)).
  { change 256 with (2 ^ 8). rewrite <- Z.pow_mul_r by lia. reflexivity. }
  assert (Hp7 : 2 ^ (8 * j + 7) = 128 * 256 ^ j).
  { rewrite Z.pow_add_r, Hp by lia. change (2 ^ 7) with 128. ring. }
  assert (Hp8 : 2 ^ (8 * j + 8) = 256 * 256 ^ j).
  { rewrite Z.pow_add_r, Hp by lia. change (2 ^ 8) with 256. ring. }
  assert (Hmax : 256 ^ j <= 256 ^ 3) by (apply Z.pow_le_mono_r; lia).
  change (256 ^ 3) with 16777216 in Hmax.
  unfold byte in Htop.
  destruct (Z.leb_spec 128 (top bs)) as [Hhigh|Hlow].
  - rewrite clear_sign by (rewrite ?Hp7, ?Hp8; nia).
    rewrite Hp7. reflexivity.
  - apply ToInt32_small. nia.
Qed.

(** ** Hexadecimal strings *)

Lemma parse_byteHex (b : Z) : byte b -> parseInt16 (byteHex b) = b.
Proof.
  intros Hb. apply Z.eqb_eq.
  apply (byte_forall (fun b => parseInt16 (byteHex b) =? b));
    [vm_compute; reflexivity|assumption].
Qed.

Lemma hexdigit_eqb_eq (a b : hexdigit) : hexdigit_eqb a b = true <-> a = b.
Proof. destruct a, b; simpl; split; intros H; congruence. Qed.

Lemma hex_eqb_eq (a b : hexstring) : hex_eqb a b = true <-> a = b.
Proof.
  revert b. induction a as [|x a IH]; intros [|y b]; simpl;
    try (split; intros H; congruence).
  rewrite andb_true_iff, hexdigit_eqb_eq, IH.
  split; [intros [-> ->]; reflexivity|intros [= -> ->]; auto].
Qed.

Lemma toHex_app (a b : list Z) :
  Utils_toHex (a ++ b) = Utils_toHex a ++ Utils_toHex b.
Proof. apply flat_map_app. Qed.

Lemma toHex_cons (b : Z) (bs : list Z) :
  Utils_toHex (b :: bs) = byteHex b ++ Utils_toHex bs.
Proof. reflexivity. Qed.

Lemma length_toHex (bs : list Z) :
  length (Utils_toHex bs) = (2 * length bs)%nat.
Proof.
  induction bs as [|b bs IH]; [reflexivity|].
  rewrite toHex_cons, length_app, IH. simpl. lia.
Qed.

Lemma hexPairs_toHex (bs : list Z) :
  Forall byte bs -> hexPairs (Utils_toHex bs) = bs.
Proof.
  induction 1 as [|b bs Hb Hbs IH]; [reflexivity|].
  rewrite toHex_cons. change (byteHex b ++ Utils_toHex bs)
    with (digit_of (b / 16) :: digit_of b :: Utils_toHex bs).
  cbn [hexPairs]. rewrite IH. f_equal. now apply parse_byteHex.
Qed.

(** Reading back the hexadecimal form of bytes gives the bytes. *)
Lemma toArray_toHex (bs : list Z) :
  Forall byte bs -> Utils_toArray_hex (Utils_toHex bs) = bs.
Proof.
  intros Hbs. unfold Utils_toArray_hex.
  rewrite length_toHex, Nat.odd_mul. simpl. now apply hexPairs_toHex.
Qed.

Lemma slice_mid {A : Type} (a b c : list A) :
  JS.slice (a ++ b ++ c) (Z.of_nat (length a))
           (Z.of_nat (length a) + Z.of_nat (length b)) = b.
Proof.
  unfold JS.slice, JS.clampIndex. rewrite !length_app.
  destruct (Z.ltb_spec (Z.of_nat (length a)) 0); [lia|].
  destruct (Z.ltb_spec (Z.of_nat (length a) + Z.of_nat (length b)) 0); [lia|].
  rewrite !Z.min_l by lia.
  rewrite Nat2Z.id.
  replace (Z.to_nat (Z.of_nat (length a) + Z.of_nat (length b) - Z.of_nat (length a)))
    with (length b) by lia.
  rewrite skipn_app, skipn_all, Nat.sub_diag. simpl.
  rewrite firstn_app, firstn_all, Nat.sub_diag. simpl. apply app_nil_r.
Qed.

Lemma slice_head {A : Type} (b c : list A) :
  JS.slice (b ++ c) 0 (Z.of_nat (length b)) = b.
Proof. exact (slice_mid [] b c). Qed.

Lemma slice_empty {A : Type} (s : list A) (from to : Z) :
  0 <= to <= from -> JS.slice s from to = [].
Proof.
  intros H. unfold JS.slice, JS.clampIndex.
  destruct (Z.ltb_spec from 0); [lia|]. destruct (Z.ltb_spec to 0); [lia|].
  replace (Z.to_nat (Z.min to (Z.of_nat (length s)) - Z.min from (Z.of_nat (length s))))
    with 0%nat by lia.
  reflexivity.
Qed.

(** ** decodeBlockHeight on the encoder's outputs *)

(** The decoder on a string that starts with the two digits of [b]. *)
Lemma decode_opcode (b : Z) (rest : hexstring) :
  byte b ->
  decodeBlockHeight (byteHex b ++ rest) =
  if b =? 0 then 0
  else if (b >=? 0x51) && (b <=? 0x60) then b - 0x50
  else if b =? 0x4f then -1
  else
    let bytes := Utils_toArray_hex (JS.slice (byteHex b ++ rest) 2 (2 + b * 2)) in
    if (length bytes =? 0)%nat then 0 else scriptNum bytes.
Proof.
  intros Hb. unfold decodeBlockHeight.
  change (length (byteHex b ++ rest) =? 0)%nat with false. cbv iota.
  assert (Hs : JS.slice (byteHex b ++ rest) 0 2 = byteHex b)
    by exact (slice_head (byteHex b) rest).
  rewrite Hs, parse_byteHex by assumption.
  reflexivity.
Qed.

Lemma decode_push (bs : list Z) :
  Forall byte bs -> (1 <= length bs <= 4)%nat ->
  decodeBlockHeight (byteHex (Z.of_nat (length bs)) ++ Utils_toHex bs) = scriptNum bs.
Proof.
  intros Hbs Hlen.
  rewrite decode_opcode by (unfold byte; lia).
  destruct (Z.eqb_spec (Z.of_nat (length bs)) 0); [lia|].
  destruct (Z.geb_spec (Z.of_nat (length bs)) 0x51); [lia|]. cbn [andb].
  destruct (Z.eqb_spec (Z.of_nat (length bs)) 0x4f); [lia|].
  cbv zeta.
  assert (Hslice : JS.slice (byteHex (Z.of_nat (length bs)) ++ Utils_toHex bs)
                     2 (2 + Z.of_nat (length bs) * 2) = Utils_toHex bs).
  { rewrite <- (app_nil_r (Utils_toHex bs)) at 1.
    replace (2 + Z.of_nat (length bs) * 2)
      with (Z.of_nat (length (byteHex (Z.of_nat (length bs))))
            + Z.of_nat (length (Utils_toHex bs)))
      by (rewrite length_toHex; simpl length; lia).
    change 2 with (Z.of_nat (length (byteHex (Z.of_nat (length bs))))) at 1.
    apply slice_mid. }
  rewrite Hslice, toArray_toHex by assumption.
  destruct (Nat.eqb_spec (length bs) 0); [lia|reflexivity].
Qed.

(** ** The payload of a number and its value *)

Lemma scriptNum_snoc (X : list Z) (y : Z) :
  Forall byte X -> byte y -> (length X <= 3)%nat ->
  scriptNum (X ++ [y]) =
  if 128 <=? y
  then - (readLE X + 256 ^ Z.of_nat (length X) * (y - 128))
  else readLE X + 256 ^ Z.of_nat (length X) * y.
Proof.
  intros HX Hy Hlen.
  rewrite scriptNum_value.
  - unfold top. rewrite last_last, readLE_app, length_app. cbn [readLE length].
    replace (Z.of_nat (length X + 1) - 1) with (Z.of_nat (length X)) by lia.
    destruct (128 <=? y); ring.
  - apply Forall_app. split; [assumption|]. now constructor.
  - rewrite length_app. simpl. lia.
Qed.

Lemma spec_payload_sound (n : Z) :
  - 2 ^ 31 < n < 2 ^ 31 -> n <> 0 ->
  Forall byte (spec_payload n) /\
  (1 <= length (spec_payload n) <= 4)%nat /\
  scriptNum (spec_payload n) = n.
Proof.
  intros Hn Hn0.
  assert (Hm : 0 < Z.abs n < 256 ^ Z.of_nat 4) by (simpl; lia).
  destruct (le_magnitude_sound (Z.abs n)) as (Hbytes & Hval & _); [lia|].
  pose proof (le_magnitude_fuel _ _ Hm) as Hfuel.
  pose proof (le_bytes_length 4 (Z.abs n)) as Hlen. rewrite <- Hfuel in Hlen.
  assert (Hne : le_magnitude (Z.abs n) <> []).
  { rewrite Hfuel. apply le_bytes_nonempty. lia. }
  unfold spec_payload.
  set (mag := le_magnitude (Z.abs n)) in *.
  pose proof (app_removelast_last 0 Hne) as Hsplit.
  set (init := removelast mag) in *. set (t := last mag 0) in *.
  assert (Ht : byte t) by (apply last_byte; assumption).
  assert (Hinit : Forall byte init).
  { rewrite Hsplit in Hbytes. apply Forall_app in Hbytes. tauto. }
  assert (Hli : length mag = S (length init)).
  { rewrite Hsplit, length_app. simpl. lia. }
  assert (Hsum : Z.abs n = readLE init + 256 ^ Z.of_nat (length init) * t).
  { rewrite <- Hval, Hsplit, readLE_app. cbn [readLE]. ring. }
  pose proof (readLE_bound _ Hinit) as Hbound.
  pose proof (pow256_pos (length init)) as Hpos.
  rewrite byte_high_bit_ge by assumption.
  unfold byte in Ht.
  destruct (Z.leb_spec 128 t) as [Hhigh|Hlow].
  - assert (Hshort : (length mag <= 3)%nat).
    { destruct (le_lt_dec (length mag) 3) as [|Hlong]; [assumption|exfalso].
      assert (256 ^ 3 <= 256 ^ Z.of_nat (length init))
        by (apply Z.pow_le_mono_r; lia).
      change (256 ^ 3) with 16777216 in *. nia. }
    destruct (Z.ltb_spec n 0) as [Hneg|Hnn].
    + rewrite removelast_last, last_last. change (set_high_bit 0) with 128.
      repeat split.
      * apply Forall_app. split; [assumption|]. constructor; [unfold byte; lia|constructor].
      * rewrite length_app. simpl. lia.
      * rewrite length_app. simpl. lia.
      * rewrite scriptNum_snoc by (try assumption; unfold byte; lia).
        destruct (Z.leb_spec 128 128); [|lia].
        rewrite Hval, Z.sub_diag, Z.mul_0_r. lia.
    + repeat split.
      * apply Forall_app. split; [assumption|]. constructor; [unfold byte; lia|constructor].
      * rewrite length_app. simpl. lia.
      * rewrite length_app. simpl. lia.
      * rewrite scriptNum_snoc by (try assumption; unfold byte; lia).
        destruct (Z.leb_spec 128 0); [lia|].
        rewrite Hval, Z.mul_0_r. lia.
  - destruct (Z.ltb_spec n 0) as [Hneg|Hnn].
    + fold init. fold t.
      rewrite byte_set_high_bit_add by (unfold byte; lia).
      repeat split.
      * apply Forall_app. split; [assumption|]. constructor; [unfold byte; lia|constructor].
      * rewrite length_app. simpl. lia.
      * rewrite length_app. simpl. lia.
      * rewrite scriptNum_snoc by (try assumption; unfold byte; lia).
        destruct (Z.leb_spec 128 (t + 128)); [|lia].
        replace (t + 128 - 128) with t by ring. lia.
    + repeat split; try assumption; try lia.
      rewrite Hsplit.
      rewrite scriptNum_snoc by (try assumption; unfold byte; lia).
      destruct (Z.leb_spec 128 t); lia.
Qed.

(** ** Serialising the encoder's chunks *)

Lemma toHex_push (bs : list Z) :
  (length bs <= 4)%nat ->
  Script_toHex [mkChunk (Z.of_nat (length bs)) (Some bs)]
  = byteHex (Z.of_nat (length bs)) ++ Utils_toHex bs.
Proof.
  intros Hlen. unfold Script_toHex, Script_toBinary, chunk_toBinary.
  cbn [flat_map op data]. unfold OP_PUSHDATA1.
  destruct (Z.ltb_spec (Z.of_nat (length bs)) 76); [|lia].
  rewrite app_nil_r. reflexivity.
Qed.

Lemma toHex_opcode (o : Z) :
  Script_toHex [mkChunk o None] = byteHex o ++ [].
Proof. reflexivity. Qed.

(** The round trip of the number codec, on the encoder's chunks as
    [Script.toHex] writes them. *)
Lemma codec_roundtrip (h : Z) :
  - 2 ^ 31 < h < 2 ^ 31 ->
  decodeBlockHeight (Script_toHex (encodeBlockHeight h)) = h.
Proof.
  intros Hh. rewrite encode_refines by assumption. unfold spec_encode.
  destruct (Z.eqb_spec h 0) as [->|Hh0]; [reflexivity|].
  destruct (Z.leb_spec 1 h) as [H1|H1]; cbn [andb].
  - destruct (Z.leb_spec h 16) as [H16|H16].
    + rewrite toHex_opcode, decode_opcode by (unfold byte; lia).
      destruct (Z.eqb_spec (80 + h) 0); [lia|].
      destruct (Z.geb_spec (80 + h) 81); [|lia].
      destruct (Z.leb_spec (80 + h) 96); [|lia].
      cbn [andb]. lia.
    + destruct (Z.eqb_spec h (-1)); [lia|].
      destruct (spec_payload_sound h Hh Hh0) as (Hb & Hl & Hv).
      rewrite toHex_push, decode_push by (try assumption; lia).
      exact Hv.
  - destruct (Z.eqb_spec h (-1)) as [->|Hm1]; [reflexivity|].
    destruct (spec_payload_sound h Hh Hh0) as (Hb & Hl & Hv).
    rewrite toHex_push, decode_push by (try assumption; lia).
    exact Hv.
Qed.

(** ** startsWith, endsWith *)

Lemma hex_eqb_refl (a : hexstring) : hex_eqb a a = true.
Proof. now apply hex_eqb_eq. Qed.

Lemma startsWith_iff (s p : hexstring) :
  startsWith s p = true <-> exists t, s = p ++ t.
Proof.
  unfold startsWith. rewrite hex_eqb_eq. split.
  - intros H. exists (skipn (length p) s).
    transitivity (firstn (length p) s ++ skipn (length p) s);
      [symmetry; apply firstn_skipn|now rewrite H].
  - intros [t ->]. rewrite firstn_app, firstn_all, Nat.sub_diag. simpl.
    apply app_nil_r.
Qed.

Lemma endsWith_iff (s p : hexstring) :
  endsWith s p = true <-> exists t, s = t ++ p.
Proof.
  unfold endsWith. rewrite andb_true_iff, Nat.leb_le, hex_eqb_eq. split.
  - intros [Hle H]. exists (firstn (length s - length p) s).
    transitivity (firstn (length s - length p) s ++ skipn (length s - length p) s);
      [symmetry; apply firstn_skipn|now rewrite H].
  - intros [t ->]. rewrite length_app. split; [lia|].
    replace (length t + length p - length p)%nat with (length t) by lia.
    rewrite skipn_app, skipn_all, Nat.sub_diag. reflexivity.
Qed.

Lemma isLock_iff (s : Script) :
  isLock s = true <->
  (exists t, Script_toHex s = LOCK_PREFIX ++ t) /\
  (exists t, Script_toHex s = t ++ LOCK_SUFFIX).
Proof.
  unfold isLock. cbv zeta.
  now rewrite andb_true_iff, startsWith_iff, endsWith_iff.
Qed.

(** ** The script [lock] builds *)

Lemma Script_toHex_app (a b : Script) :
  Script_toHex (a ++ b) = Script_toHex a ++ Script_toHex b.
Proof.
  unfold Script_toHex, Script_toBinary. now rewrite flat_map_app, toHex_app.
Qed.

Lemma toHex_fromHex_prefix : Script_toHex (Script_fromHex LOCK_PREFIX) = LOCK_PREFIX.
Proof. vm_compute. reflexivity. Qed.

Lemma toHex_fromHex_suffix : Script_toHex (Script_fromHex LOCK_SUFFIX) = LOCK_SUFFIX.
Proof. vm_compute. reflexivity. Qed.

Lemma toHex_pkh (pkh : list Z) :
  Script_toHex [mkChunk 20 (Some pkh)] = byteHex 20 ++ Utils_toHex pkh.
Proof.
  unfold Script_toHex, Script_toBinary, chunk_toBinary. cbn [flat_map op data].
  change (20 <? OP_PUSHDATA1) with true. cbv iota.
  rewrite app_nil_r. reflexivity.
Qed.

Lemma lock_toHex (pkh : list Z) (h : Z) :
  Script_toHex (Script_fromHex LOCK_PREFIX
                  ++ [mkChunk 20 (Some pkh)]
                  ++ encodeBlockHeight h
                  ++ Script_fromHex LOCK_SUFFIX)
  = LOCK_PREFIX ++ (byteHex 20 ++ Utils_toHex pkh)
      ++ Script_toHex (encodeBlockHeight h) ++ LOCK_SUFFIX.
Proof.
  rewrite !Script_toHex_app, toHex_fromHex_prefix, toHex_fromHex_suffix, toHex_pkh.
  reflexivity.
Qed.

(** What [isLock] and [decode] make of a script whose hexadecimal form is
    prefix, 0x14, a 20-byte hash, a height field, suffix. *)
Lemma decode_lock_shape (s : Script) (pkh : list Z) (field : hexstring) :
  length pkh = 20%nat -> Forall byte pkh ->
  Script_toHex s = LOCK_PREFIX ++ (byteHex 20 ++ Utils_toHex pkh) ++ field ++ LOCK_SUFFIX ->
  isLock s = true /\
  decode s = Ok (mkLockDecoded pkh (decodeBlockHeight field)).
Proof.
  intros Hlen Hbytes Hhex.
  assert (Hlock : isLock s = true).
  { apply isLock_iff. rewrite Hhex. split.
    - eexists. reflexivity.
    - exists (LOCK_PREFIX ++ (byteHex 20 ++ Utils_toHex pkh) ++ field).
      now rewrite <- !app_assoc. }
  split; [assumption|].
  unfold decode. rewrite Hlock. cbn [negb]. cbv zeta.
  assert (Hpl : length (Utils_toHex pkh) = 40%nat) by (rewrite length_toHex; lia).
  assert (Hpkh : JS.slice (Script_toHex s)
                   (Z.of_nat (length LOCK_PREFIX) + 2)
                   (Z.of_nat (length LOCK_PREFIX) + 2 + 40) = Utils_toHex pkh).
  { rewrite Hhex.
    replace (LOCK_PREFIX ++ (byteHex 20 ++ Utils_toHex pkh) ++ field ++ LOCK_SUFFIX)
      with ((LOCK_PREFIX ++ byteHex 20) ++ Utils_toHex pkh ++ field ++ LOCK_SUFFIX)
      by (now rewrite <- !app_assoc).
    replace (Z.of_nat (length LOCK_PREFIX) + 2)
      with (Z.of_nat (length (LOCK_PREFIX ++ byteHex 20)))
      by (rewrite length_app; simpl length; lia).
    replace 40 with (Z.of_nat (length (Utils_toHex pkh))) by lia.
    apply slice_mid. }
  assert (Huntil : JS.slice (Script_toHex s)
                     (Z.of_nat (length LOCK_PREFIX) + 2 + 40)
                     (Z.of_nat (length (Script_toHex s)) - Z.of_nat (length LOCK_SUFFIX))
                   = field).
  { rewrite Hhex.
    replace (LOCK_PREFIX ++ (byteHex 20 ++ Utils_toHex pkh) ++ field ++ LOCK_SUFFIX)
      with ((LOCK_PREFIX ++ byteHex 20 ++ Utils_toHex pkh) ++ field ++ LOCK_SUFFIX)
      by (now rewrite <- !app_assoc).
    replace (Z.of_nat (length LOCK_PREFIX) + 2 + 40)
      with (Z.of_nat (length (LOCK_PREFIX ++ byteHex 20 ++ Utils_toHex pkh)))
      by (rewrite !length_app, Hpl; simpl length; lia).
    replace (Z.of_nat (length ((LOCK_PREFIX ++ byteHex 20 ++ Utils_toHex pkh)
                                 ++ field ++ LOCK_SUFFIX))
             - Z.of_nat (length LOCK_SUFFIX))
      with (Z.of_nat (length (LOCK_PREFIX ++ byteHex 20 ++ Utils_toHex pkh))
            + Z.of_nat (length field))
      by (rewrite !length_app; lia).
    apply slice_mid. }
  rewrite Hpkh, Huntil, toArray_toHex by assumption. reflexivity.
Qed.

Lemma lock_decode (fromBase58Check : string -> result (list Z)) (addr : string) (h : Z) :
  valid_address fromBase58Check addr ->
  - 2 ^ 31 < h < 2 ^ 31 ->
  exists (script : Script) (pkh : list Z),
    fromBase58Check addr = Ok pkh /\
    lock fromBase58Check addr h = Ok script /\
    isLock script = true /\
    decode script = Ok (mkLockDecoded pkh h).
Proof.
  intros (pkh & Haddr & Hlen & Hbytes) Hh.
  unfold lock, rbind. rewrite Haddr.
  eexists. exists pkh. split; [reflexivity|]. split; [reflexivity|].
  destruct (decode_lock_shape _ pkh _ Hlen Hbytes (lock_toHex pkh h)) as [Hl Hd].
  split; [assumption|]. rewrite Hd, codec_roundtrip by assumption. reflexivity.
Qed.

Lemma test_heights_range (h : Z) :
  In h test_heights -> - (2 ^ 31 - 1) <= h <= 2 ^ 31 - 1.
Proof.
  unfold test_heights. simpl. intros H.
  repeat (destruct H as [<-|H]; [lia|]). destruct H.
Qed.

(** C2: the number codec round-trips every integer from -(2^31-1) to
    2^31-1, on the encoder's chunks serialised as [Script.toHex] does; and
    for every valid address and every height of that range, in particular
    every height of the test list, [lock] returns a script that [isLock]
    accepts and whose [decode] gives back the height (and the hash). *)
Theorem lock_roundtrip :
  (forall h : Z,
     - (2 ^ 31 - 1) <= h <= 2 ^ 31 - 1 ->
     decodeBlockHeight (Script_toHex (encodeBlockHeight h)) = h) /\
  (forall (fromBase58Check : string -> result (list Z)) (addr : string) (h : Z),
     valid_address fromBase58Check addr ->
     In h test_heights \/ - (2 ^ 31 - 1) <= h <= 2 ^ 31 - 1 ->
     exists (script : Script) (d : LockDecoded),
       lock fromBase58Check addr h = Ok script /\
       isLock script = true /\
       decode script = Ok d /\
       until d = h /\
       fromBase58Check addr = Ok (pkh d)).
Proof.
  split.
  - intros h Hh. apply codec_roundtrip. lia.
  - intros f addr h Hvalid Hh.
    assert (Hr : - 2 ^ 31 < h < 2 ^ 31).
    { destruct Hh as [Hin|Hr]; [apply test_heights_range in Hin|]; lia. }
    destruct (lock_decode f addr h Hvalid Hr) as (script & pkh & Ha & Hl & Hi & Hd).
    exists script, (mkLockDecoded pkh h). auto.
Qed.

(** C3 (amended): for every integer whose magnitude is at most 2^31-1 the
    encoder yields what the specification words, the zero operation being
    opcode 0x00: zero gives that opcode alone, 1..16 give 0x51..0x60
    alone, -1 gives 0x4f alone, and any other number gives one push whose
    opcode is the payload's length and whose payload is the magnitude's
    little-endian bytes, one more zero byte when the top byte has its high
    bit set, the high bit of the final byte set for a negative number. *)
Theorem encode_follows_rules (n : Z) :
  - (2 ^ 31 - 1) <= n <= 2 ^ 31 - 1 ->
  encodeBlockHeight n = spec_encode 0x00 n /\
  (n = 0 -> encodeBlockHeight n = [mkChunk 0x00 None]) /\
  (1 <= n <= 16 -> encodeBlockHeight n = [mkChunk (0x50 + n) None]) /\
  (n = -1 -> encodeBlockHeight n = [mkChunk 0x4f None]) /\
  (n < -1 \/ 16 < n ->
     encodeBlockHeight n
     = [mkChunk (Z.of_nat (length (spec_payload n))) (Some (spec_payload n))]
     /\ (1 <= length (spec_payload n) <= 4)%nat).
Proof.
  intros Hn.
  assert (Hr : - 2 ^ 31 < n < 2 ^ 31) by lia.
  pose proof (encode_refines n Hr) as He.
  split; [assumption|]. rewrite He. unfold spec_encode.
  repeat split.
  - intros ->. reflexivity.
  - intros H. destruct (Z.eqb_spec n 0); [lia|].
    destruct (Z.leb_spec 1 n); [|lia]. destruct (Z.leb_spec n 16); [|lia].
    reflexivity.
  - intros ->. reflexivity.
  - destruct (Z.eqb_spec n 0); [lia|].
    destruct (Z.leb_spec 1 n); destruct (Z.leb_spec n 16); try lia;
      destruct (Z.eqb_spec n (-1)); try lia; reflexivity.
  - destruct (spec_payload_sound n Hr) as (_ & Hl & _); lia.
  - destruct (spec_payload_sound n Hr) as (_ & Hl & _); lia.
Qed.

(** ** The parser's bound *)

(** Every chunk takes at least its opcode byte, so the length of the input
    bounds the number of chunks: a larger bound parses the same. *)
Lemma parseChunks_fuel (f1 f2 : nat) (bin : list Z) :
  (length bin <= f1)%nat -> (length bin <= f2)%nat ->
  parseChunks f1 bin = parseChunks f2 bin.
Proof.
  revert f2 bin. induction f1 as [|f1 IH]; intros f2 bin H1 H2.
  - destruct bin; [|simpl in H1; lia]. destruct f2; reflexivity.
  - destruct f2 as [|f2]; [destruct bin; [reflexivity|simpl in H2; lia]|].
    destruct bin as [|o rest]; [reflexivity|].
    cbn [parseChunks length] in *.
    destruct ((0 <? o) && (o <? OP_PUSHDATA1)).
    + f_equal. apply IH; rewrite length_skipn; lia.
    + destruct ((OP_PUSHDATA1 <=? o) && (o <=? OP_PUSHDATA4)).
      * cbv zeta. f_equal. apply IH; rewrite !length_skipn; lia.
      * f_equal. apply IH; lia.
Qed.

(** ** isLock and decode on the bytes of a script *)

Lemma firstn_toHex (k : nat) (B : list Z) :
  firstn (2 * k) (Utils_toHex B) = Utils_toHex (firstn k B).
Proof.
  revert B. induction k as [|k IH]; intros B; [reflexivity|].
  destruct B as [|b B]; [reflexivity|].
  replace (2 * S k)%nat with (S (S (2 * k))) by lia.
  cbn [firstn]. rewrite !toHex_cons. cbn [byteHex app firstn].
  now rewrite IH.
Qed.

Lemma skipn_toHex (k : nat) (B : list Z) :
  skipn (2 * k) (Utils_toHex B) = Utils_toHex (skipn k B).
Proof.
  revert B. induction k as [|k IH]; intros B; [reflexivity|].
  destruct B as [|b B]; [reflexivity|].
  replace (2 * S k)%nat with (S (S (2 * k))) by lia.
  cbn [skipn]. rewrite !toHex_cons. cbn [byteHex app skipn].
  apply IH.
Qed.

Lemma slice_toHex (B : list Z) (a b : Z) :
  0 <= a -> 0 <= b ->
  JS.slice (Utils_toHex B) (2 * a) (2 * b) = Utils_toHex (JS.slice B a b).
Proof.
  intros Ha Hb. unfold JS.slice, JS.clampIndex. rewrite length_toHex.
  destruct (Z.ltb_spec (2 * a) 0); [lia|]. destruct (Z.ltb_spec (2 * b) 0); [lia|].
  destruct (Z.ltb_spec a 0); [lia|]. destruct (Z.ltb_spec b 0); [lia|].
  set (L := length B).
  replace (Z.to_nat (Z.min (2 * a) (Z.of_nat (2 * L))))
    with (2 * Z.to_nat (Z.min a (Z.of_nat L)))%nat by lia.
  replace (Z.to_nat (Z.min (2 * b) (Z.of_nat (2 * L)) - Z.min (2 * a) (Z.of_nat (2 * L))))
    with (2 * Z.to_nat (Z.min b (Z.of_nat L) - Z.min a (Z.of_nat L)))%nat by lia.
  now rewrite skipn_toHex, firstn_toHex.
Qed.

Lemma Forall_firstn_skipn {A : Type} (P : A -> Prop) (n : nat) (l : list A) :
  Forall P l -> Forall P (firstn n l) /\ Forall P (skipn n l).
Proof.
  intros H. rewrite <- (firstn_skipn n l) in H. now apply Forall_app in H.
Qed.

Lemma Forall_firstn {A : Type} (P : A -> Prop) (n : nat) (l : list A) :
  Forall P l -> Forall P (firstn n l).
Proof. intros H. now apply Forall_firstn_skipn. Qed.

Lemma Forall_skipn {A : Type} (P : A -> Prop) (n : nat) (l : list A) :
  Forall P l -> Forall P (skipn n l).
Proof. intros H. now apply (Forall_firstn_skipn P n l). Qed.

Lemma slice_byte (B : list Z) (a b : Z) : Forall byte B -> Forall byte (JS.slice B a b).
Proof.
  intros H. unfold JS.slice. apply Forall_firstn, Forall_skipn. exact H.
Qed.

Lemma toHex_inj (a b : list Z) :
  Forall byte a -> Forall byte b -> Utils_toHex a = Utils_toHex b -> a = b.
Proof.
  intros Ha Hb H. rewrite <- (toArray_toHex a Ha), <- (toArray_toHex b Hb).
  now rewrite H.
Qed.

Lemma starts_bytes (B P : list Z) :
  Forall byte B -> Forall byte P ->
  (exists t, Utils_toHex B = Utils_toHex P ++ t) <-> (exists t, B = P ++ t).
Proof.
  intros HB HP. split.
  - intros [t Ht]. exists (skipn (length P) B).
    assert (Hf : firstn (length P) B = P).
    { apply toHex_inj; [now apply Forall_firstn|assumption|].
      rewrite <- firstn_toHex, Ht, <- length_toHex.
      rewrite firstn_app, firstn_all, Nat.sub_diag. simpl. apply app_nil_r. }
    rewrite <- Hf at 1. symmetry. apply firstn_skipn.
  - intros [t ->]. exists (Utils_toHex t). apply toHex_app.
Qed.

Lemma ends_bytes (B P : list Z) :
  Forall byte B -> Forall byte P ->
  (exists t, Utils_toHex B = t ++ Utils_toHex P) <-> (exists t, B = t ++ P).
Proof.
  intros HB HP. split.
  - intros [t Ht]. exists (firstn (length B - length P) B).
    assert (Hlen : length t = (2 * (length B - length P))%nat /\
                   (length P <= length B)%nat).
    { apply (f_equal (@length hexdigit)) in Ht.
      rewrite length_app, !length_toHex in Ht. lia. }
    destruct Hlen as [Hlen Hle].
    assert (Hs : skipn (length B - length P) B = P).
    { apply toHex_inj; [now apply Forall_skipn|assumption|].
      rewrite <- skipn_toHex, Ht, <- Hlen.
      rewrite skipn_app, skipn_all, Nat.sub_diag. reflexivity. }
    rewrite <- Hs at 2. symmetry. apply firstn_skipn.
  - intros [t ->]. exists (Utils_toHex t). apply toHex_app.
Qed.

Lemma prefix_bytes : Utils_toHex LOCK_PREFIX_BYTES = LOCK_PREFIX /\ Forall byte LOCK_PREFIX_BYTES.
Proof.
  split; [vm_compute; reflexivity|].
  apply Forall_forall. intros x Hx. unfold byte.
  apply (proj1 (forallb_forall (fun x => (0 <=? x) && (x <? 256)) LOCK_PREFIX_BYTES)
           eq_refl) in Hx.
  lia.
Qed.

Lemma suffix_bytes : Utils_toHex LOCK_SUFFIX_BYTES = LOCK_SUFFIX /\ Forall byte LOCK_SUFFIX_BYTES.
Proof.
  split; [vm_compute; reflexivity|].
  apply Forall_forall. intros x Hx. unfold byte.
  apply (proj1 (forallb_forall (fun x => (0 <=? x) && (x <? 256)) LOCK_SUFFIX_BYTES)
           eq_refl) in Hx.
  lia.
Qed.

Lemma decode_throws_iff (s : Script) :
  decode s = Throw "Script is not a valid Lock script" <-> isLock s = false.
Proof.
  unfold decode. destruct (isLock s); simpl; split; intros H;
    try reflexivity; discriminate.
Qed.

(** What [isLock] and [decode] do on a script whose binary form [B] is
    made of bytes: [isLock] holds exactly when [B] starts with the prefix
    constant and ends with the suffix constant; [decode] throws "Script is
    not a valid Lock script" exactly when [isLock] fails; otherwise it
    returns bytes 41 to 61 of [B], cut short where [B] ends, as the hash
    field, so 20 bytes exactly when [B] has 61 bytes or more, and the bytes
    from 61 up to the suffix, decoded by the number codec, as the height. *)
Theorem isLock_decode_bytes (s : Script) :
  Forall byte (Script_toBinary s) ->
  (isLock s = true <->
     (exists t, Script_toBinary s = LOCK_PREFIX_BYTES ++ t) /\
     (exists t, Script_toBinary s = t ++ LOCK_SUFFIX_BYTES)) /\
  (decode s = Throw "Script is not a valid Lock script" <-> isLock s = false) /\
  (isLock s = true ->
     decode s =
     Ok (mkLockDecoded
           (JS.slice (Script_toBinary s) 41 61)
           (decodeBlockHeight
              (Utils_toHex (JS.slice (Script_toBinary s) 61
                              (Z.of_nat (length (Script_toBinary s)) - 12)))))) /\
  (length (JS.slice (Script_toBinary s) 41 61) = 20%nat <->
     (61 <= length (Script_toBinary s))%nat).
Proof.
  intros HB. set (B := Script_toBinary s) in *.
  destruct prefix_bytes as [Hp Hpb]. destruct suffix_bytes as [Hs Hsb].
  assert (Hiff : isLock s = true <->
                 (exists t, B = LOCK_PREFIX_BYTES ++ t) /\
                 (exists t, B = t ++ LOCK_SUFFIX_BYTES)).
  { pose proof (starts_bytes B _ HB Hpb) as H1.
    pose proof (ends_bytes B _ HB Hsb) as H2.
    change (Utils_toHex LOCK_PREFIX_BYTES) with LOCK_PREFIX in H1.
    change (Utils_toHex LOCK_SUFFIX_BYTES) with LOCK_SUFFIX in H2.
    rewrite isLock_iff. unfold Script_toHex. fold B. tauto. }
  split; [exact Hiff|]. split; [apply decode_throws_iff|]. split.
  - intros Hlock. unfold decode. rewrite Hlock. cbn [negb]. cbv zeta.
    unfold Script_toHex. fold B.
    destruct (proj1 Hiff Hlock) as [_ [t Ht]].
    assert (Hlen : (12 <= length B)%nat).
    { rewrite Ht, length_app. change (length LOCK_SUFFIX_BYTES) with 12%nat. lia. }
    change (Z.of_nat (length LOCK_PREFIX) + 2) with (2 * 41).
    change (2 * 41 + 40) with (2 * 61).
    replace (Z.of_nat (length (Utils_toHex B)) - Z.of_nat (length LOCK_SUFFIX))
      with (2 * (Z.of_nat (length B) - 12))
      by (rewrite length_toHex; change (length LOCK_SUFFIX) with 24%nat; lia).
    rewrite !slice_toHex by lia.
    rewrite toArray_toHex by (now apply slice_byte).
    reflexivity.
  - unfold JS.slice, JS.clampIndex.
    change (61 <? 0) with false. change (41 <? 0) with false. cbv iota.
    rewrite length_firstn, length_skipn. fold B. lia.
Qed.

End LockFacts.

(** ** The Lock theorems on concrete scripts *)

Module LockExamples.

(** C3, as stated, fails on the opcode of zero and on numbers of 32 bits
    and more: zero is encoded as opcode 0x00, not 0x50, and 2^31 is
    encoded as the one-byte push of 0, not as its five-byte magnitude. *)
Lemma encode_zero_and_large :
  Lock.encodeBlockHeight 0 = [mkChunk 0x00 None] /\
  LockSpec.spec_encode 0x50 0 = [mkChunk 0x50 None] /\
  Lock.encodeBlockHeight (2 ^ 31) = [mkChunk 1 (Some [0])] /\
  LockSpec.spec_encode 0x50 (2 ^ 31) = [mkChunk 5 (Some [0; 0; 0; 128; 0])] /\
  ~ (forall n, Lock.encodeBlockHeight n = LockSpec.spec_encode 0x50 n) /\
  ~ (forall n, Lock.encodeBlockHeight n = LockSpec.spec_encode 0x00 n).
Proof.
  split; [reflexivity|]. split; [reflexivity|].
  split; [vm_compute; reflexivity|]. split; [vm_compute; reflexivity|].
  split.
  - intros H. specialize (H 0). discriminate H.
  - intros H. specialize (H (2 ^ 31)). vm_compute in H. discriminate H.
Qed.

(** C7: the code departs from the claim, and from its own documentation
    of [decode] and of [LockDecoded.pkh], on the script made of the prefix
    and the suffix alone: [isLock] accepts it, and [decode], instead of
    throwing or returning a 20-byte hash, returns an 11-byte hash field
    (bytes of the suffix) and height 0. *)
Lemma decode_prefix_suffix :
  Lock.isLock Toy.prefix_suffix_script = true /\
  Lock.decode Toy.prefix_suffix_script =
    Ok (Lock.mkLockDecoded [172; 126; 118; 1; 32; 127; 117; 169; 1; 20; 136] 0) /\
  ~ (forall s : Script,
       Lock.isLock s = true ->
       exists d, Lock.decode s = Ok d /\ length (Lock.pkh d) = 20%nat).
Proof.
  split; [vm_compute; reflexivity|]. split; [vm_compute; reflexivity|].
  intros H. destruct (H Toy.prefix_suffix_script eq_refl) as (d & Hd & Hlen).
  vm_compute in Hd. injection Hd as <-. discriminate Hlen.
Qed.

Lemma toy_address_valid (addr : string) :
  LockSpec.valid_address Toy.fromBase58Check addr.
Proof.
  exists (repeat 7 20). split; [reflexivity|]. split; [reflexivity|].
  apply Forall_forall. intros x Hx. apply repeat_spec in Hx. subst x.
  unfold byte. lia.
Defined.

Lemma lock_roundtrip_witness :
  Lock.decodeBlockHeight (Script_toHex (Lock.encodeBlockHeight (-2147483647)))
    = -2147483647 /\
  exists (script : Script) (d : Lock.LockDecoded),
    Lock.lock Toy.fromBase58Check "1A1zP1eP5QGefi2DMPTfTL5SLmv7DivfNa" 2147483647
      = Ok script /\
    Lock.isLock script = true /\
    Lock.decode script = Ok d /\
    Lock.until d = 2147483647 /\
    Toy.fromBase58Check "1A1zP1eP5QGefi2DMPTfTL5SLmv7DivfNa" = Ok (Lock.pkh d).
Proof.
  split.
  - apply (proj1 LockFacts.lock_roundtrip). lia.
  - apply (proj2 LockFacts.lock_roundtrip).
    + apply toy_address_valid.
    + left. simpl. tauto.
Defined.

Lemma encode_follows_rules_witness :
  Lock.encodeBlockHeight (-128) = LockSpec.spec_encode 0x00 (-128) /\
  Lock.encodeBlockHeight (-128) = [mkChunk 2 (Some [128; 128])].
Proof.
  assert (H : - (2 ^ 31 - 1) <= -128 <= 2 ^ 31 - 1) by lia.
  destruct (LockFacts.encode_follows_rules (-128) H) as (Hspec & _ & _ & _ & Hpush).
  split; [exact Hspec|].
  apply Hpush. left. lia.
Defined.

Lemma toy_script_bytes : Forall byte (Script_toBinary Toy.lock_800000).
Proof.
  apply Forall_forall. intros x Hx. unfold byte.
  apply (proj1 (forallb_forall (fun x => (0 <=? x) && (x <? 256))
                  (Script_toBinary Toy.lock_800000)) eq_refl) in Hx.
  lia.
Defined.

Lemma isLock_decode_bytes_witness :
  Lock.isLock Toy.lock_800000 = true /\
  Lock.decode Toy.lock_800000 = Ok (Lock.mkLockDecoded (repeat 7 20) 800000).
Proof.
  pose proof (LockFacts.isLock_decode_bytes Toy.lock_800000 toy_script_bytes)
    as (_ & _ & Hdec & _).
  split; [reflexivity|]. exact (Hdec eq_refl).
Defined.

End LockExamples.

(* ================================================================== *)
(** * More of the Lock template *)
(* ================================================================== *)

Module LockMore.

Import Lock LockSpec LockFacts.

(** ** The encoder on every integer *)

Lemma band_0xff_byte (n : Z) : byte (JS.band n 0xff).
Proof.
  unfold JS.band, byte.
  change (JS.ToInt32 255) with (Z.ones 8).
  rewrite Z.land_ones by lia. zdiv.
Qed.

Lemma sar_8_range (n : Z) : - 2 ^ 23 <= JS.sar n 8 < 2 ^ 23.
Proof.
  unfold JS.sar. change (8 mod 32) with 8.
  rewrite Z.shiftr_div_pow2 by lia.
  pose proof (ToInt32_range n). zdiv.
Qed.

(** The last of some bytes whose value is below 128 * 256^(length - 1) has
    its high bit clear. *)
Lemma top_below (bs : list Z) :
  Forall byte bs -> bs <> [] ->
  readLE bs < 128 * 256 ^ Z.of_nat (length (removelast bs)) ->
  last bs 0 < 128.
Proof.
  intros Hbs Hne Hlt.
  rewrite (app_removelast_last 0 Hne) in Hbs, Hlt at 1.
  apply Forall_app in Hbs. destruct Hbs as [Hinit _].
  rewrite readLE_app in Hlt. cbn [readLE] in Hlt.
  pose proof (readLE_bound _ Hinit).
  pose proof (pow256_pos (length (removelast bs))).
  nia.
Qed.

(** What the loop leaves for a positive number of any size: one to four
    bytes, and a fourth byte has its high bit clear. *)
Lemma while_push_any (n : Z) :
  0 < n ->
  Forall byte (snd (while_push while_fuel n [])) /\
  (1 <= length (snd (while_push while_fuel n [])) <= 4)%nat /\
  (length (snd (while_push while_fuel n [])) = 4%nat ->
   top (snd (while_push while_fuel n [])) < 128).
Proof.
  intros Hn. unfold while_fuel. rewrite while_push_step.
  destruct (Z.gtb_spec n 0) as [_|]; [|lia].
  pose proof (band_0xff_byte n) as Hb0.
  pose proof (sar_8_range n) as Hr.
  change ([] ++ [JS.band n 255]) with [JS.band n 255].
  destruct (Z_lt_le_dec 0 (JS.sar n 8)) as [Hpos|Hle].
  - rewrite while_push_le by (simpl; lia).
    cbn [snd]. set (L := le_bytes 3 (JS.sar n 8)).
    pose proof (le_bytes_byte 3 (JS.sar n 8)) as HL.
    pose proof (le_bytes_length 3 (JS.sar n 8)) as HLlen.
    pose proof (le_bytes_value 3 (JS.sar n 8) ltac:(simpl; lia)) as HLval.
    assert (HLne : L <> []) by (apply le_bytes_nonempty; lia).
    fold L in HL, HLlen, HLval.
    split; [constructor; assumption|].
    split; [simpl; lia|].
    intros H4. cbn [app length] in H4.
    unfold top. change ([JS.band n 255] ++ L) with (JS.band n 255 :: L).
    destruct L as [|x L'] eqn:HeqL; [contradiction|].
    change (last (JS.band n 255 :: x :: L') 0) with (last (x :: L') 0).
    apply top_below; [assumption|discriminate|].
    rewrite HLval.
    assert (Hrl : length (removelast (x :: L')) = 2%nat).
    { pose proof (f_equal (@length Z) (app_removelast_last 0 HLne)) as Hl.
      rewrite length_app in Hl. cbn [length] in Hl, H4. lia. }
    rewrite Hrl. change (128 * 256 ^ Z.of_nat 2) with (2 ^ 23). lia.
  - rewrite while_push_step.
    destruct (Z.gtb_spec (JS.sar n 8) 0); [lia|].
    cbn [snd]. split; [constructor; [assumption|constructor]|].
    split; [simpl; lia|]. simpl. lia.
Qed.

(** The sign handling keeps one to four bytes. *)
Lemma sign_stage (bytes : list Z) (negative : bool) :
  Forall byte bytes ->
  (1 <= length bytes <= 4)%nat ->
  (length bytes = 4%nat -> top bytes < 128) ->
  let out := if negb (JS.band (top bytes) 0x80 =? 0)
             then bytes ++ [if negative then 0x80 else 0x00]
             else if negative then or_top bytes 0x80 else bytes in
  Forall byte out /\ (1 <= length out <= 4)%nat.
Proof.
  intros Hbytes Hlen Htop4. cbv zeta.
  pose proof (last_byte _ Hbytes) as Htop. fold (top bytes) in Htop.
  rewrite byte_high_bit, byte_high_bit_ge by assumption.
  destruct (Z.leb_spec 128 (top bytes)) as [Hhigh|Hlow].
  - rewrite length_app. cbn [length]. split; [|lia].
    apply Forall_app. split; [assumption|].
    constructor; [destruct negative; unfold byte; lia|constructor].
  - destruct negative; [|split; assumption].
    assert (Hne : bytes <> []) by (destruct bytes; [simpl in Hlen; lia|discriminate]).
    assert (Hor : or_top bytes 0x80 = removelast bytes ++ [JS.bor (top bytes) 0x80])
      by (destruct bytes; [contradiction|reflexivity]).
    rewrite Hor.
    pose proof (f_equal (@length Z) (app_removelast_last 0 Hne)) as Hl.
    rewrite length_app in Hl. cbn [length] in Hl.
    rewrite length_app. cbn [length]. split; [|lia].
    apply Forall_app. split.
    + rewrite (app_removelast_last 0 Hne) in Hbytes. apply Forall_app in Hbytes. tauto.
    + constructor; [|constructor].
      rewrite byte_set_high_bit, byte_set_high_bit_add by (try assumption; lia).
      unfold byte in *. lia.
Qed.

(** X1: for every integer, whatever its size, the encoder returns exactly
    one chunk: a bare opcode among 0x00, 0x4f, 0x51..0x60, or a push whose
    opcode is the length of its payload, the payload having one to four
    bytes.  It never emits a PUSHDATA opcode nor a payload of five bytes. *)
Theorem encode_shape (n : Z) :
  exists c : ScriptChunk,
    encodeBlockHeight n = [c] /\
    ((data c = None /\ (op c = 0x00 \/ op c = 0x4f \/ 0x51 <= op c <= 0x60)) \/
     (exists bs : list Z,
        data c = Some bs /\
        op c = Z.of_nat (length bs) /\
        (1 <= length bs <= 4)%nat /\
        Forall byte bs)).
Proof.
  unfold encodeBlockHeight.
  destruct (Z.eqb_spec n 0) as [->|Hn0].
  { exists (mkChunk 0 None). split; [reflexivity|]. left. cbn [op data]. auto. }
  destruct ((n >=? 1) && (n <=? 16)) eqn:Hsmall.
  { exists (mkChunk (0x50 + n) None). split; [reflexivity|]. left. cbn [op data].
    apply andb_true_iff in Hsmall. destruct Hsmall as [H1 H16].
    rewrite Z.geb_leb in H1. apply Z.leb_le in H1, H16.
    split; [reflexivity|]. right. right. lia. }
  destruct (Z.eqb_spec n (-1)) as [->|Hm1].
  { exists (mkChunk 0x4f None). split; [reflexivity|]. left. cbn [op data]. auto. }
  cbv zeta.
  assert (Hpos : 0 < (if n <? 0 then - n else n))
    by (destruct (Z.ltb_spec n 0); lia).
  destruct (while_push_any _ Hpos) as (Hbytes & Hlen & Htop4).
  destruct (sign_stage _ (n <? 0) Hbytes Hlen Htop4) as [Hout Hlout].
  eexists. split; [reflexivity|]. right. cbn [op data].
  eexists. split; [reflexivity|]. split; [reflexivity|]. split; assumption.
Qed.

(** ** Heights of more than 32 bits *)

Lemma ToInt32_wrap (x k : Z) : JS.ToInt32 (x + k * 2 ^ 32) = JS.ToInt32 x.
Proof.
  unfold JS.ToInt32.
  replace (x + k * 2 ^ 32 + 2 ^ 31) with (x + 2 ^ 31 + k * 2 ^ 32) by ring.
  now rewrite Z.mod_add by lia.
Qed.

Lemma while_push_wrap (fuel : nat) (h k : Z) (acc : list Z) :
  0 < h -> 0 <= k ->
  while_push (S fuel) (h + k * 2 ^ 32) acc = while_push (S fuel) h acc.
Proof.
  intros Hh Hk. rewrite !while_push_step.
  destruct (Z.gtb_spec (h + k * 2 ^ 32) 0); [|nia].
  destruct (Z.gtb_spec h 0); [|lia].
  unfold JS.sar, JS.band. now rewrite ToInt32_wrap.
Qed.

(** The encoder on a number beyond the dedicated opcodes: the push of the
    bytes the loop and the sign handling leave. *)
Lemma encode_push (n : Z) :
  n < -1 \/ 16 < n ->
  encodeBlockHeight n =
  let bytes := snd (while_push while_fuel (Z.abs n) []) in
  let bytes :=
    if negb (JS.band (top bytes) 0x80 =? 0)
    then bytes ++ [if n <? 0 then 0x80 else 0x00]
    else if n <? 0 then or_top bytes 0x80
    else bytes in
  [mkChunk (Z.of_nat (length bytes)) (Some bytes)].
Proof.
  intros Hn. unfold encodeBlockHeight.
  destruct (Z.eqb_spec n 0); [lia|].
  destruct (Z.geb_spec n 1); destruct (Z.leb_spec n 16); cbn [andb]; try lia;
    destruct (Z.eqb_spec n (-1)); try lia;
    cbv zeta;
    replace (if n <? 0 then - n else n) with (Z.abs n)
      by (destruct (Z.ltb_spec n 0); lia);
    reflexivity.
Qed.

(** X2: the encoder reads a height modulo 2^32: for 16 < h < 2^31 and any
    k >= 0, h + k * 2^32 is encoded exactly as h, and -(h + k * 2^32) as
    -h; so [lock] builds the same script for both heights. *)
Theorem encode_wraps (h k : Z) :
  16 < h < 2 ^ 31 -> 0 <= k ->
  encodeBlockHeight (h + k * 2 ^ 32) = encodeBlockHeight h /\
  encodeBlockHeight (- (h + k * 2 ^ 32)) = encodeBlockHeight (- h) /\
  (forall (fromBase58Check : string -> result (list Z)) (addr : string),
     lock fromBase58Check addr (h + k * 2 ^ 32) = lock fromBase58Check addr h) /\
  decodeBlockHeight (Script_toHex (encodeBlockHeight (h + k * 2 ^ 32))) = h.
Proof.
  intros Hh Hk.
  assert (Hbig : 16 < h + k * 2 ^ 32) by nia.
  assert (Hpos : encodeBlockHeight (h + k * 2 ^ 32) = encodeBlockHeight h).
  { rewrite !encode_push by lia. cbv zeta.
    rewrite !Z.abs_eq by lia. unfold while_fuel.
    rewrite while_push_wrap by lia.
    destruct (Z.ltb_spec (h + k * 2 ^ 32) 0); [lia|].
    destruct (Z.ltb_spec h 0); [lia|]. reflexivity. }
  split; [exact Hpos|]. split; [|split].
  - rewrite !encode_push by lia. cbv zeta.
    rewrite !Z.abs_neq, !Z.opp_involutive by lia. unfold while_fuel.
    rewrite while_push_wrap by lia.
    destruct (Z.ltb_spec (- (h + k * 2 ^ 32)) 0); [|lia].
    destruct (Z.ltb_spec (- h) 0); [|lia]. reflexivity.
  - intros f addr. unfold lock. now rewrite Hpos.
  - rewrite Hpos. apply codec_roundtrip. lia.
Qed.

(** ** The decoder on any push *)

(** X3: on a push of one to four bytes the decoder returns the
    sign-and-magnitude little-endian value of the payload, whatever follows
    the push in the string, minimal or not; the value is within
    -(2^31-1)..2^31-1, and encoding it and decoding again gives it back. *)
Theorem decode_push_value (bs : list Z) (rest : hexstring) :
  Forall byte bs -> (1 <= length bs <= 4)%nat ->
  let v := decodeBlockHeight (byteHex (Z.of_nat (length bs)) ++ Utils_toHex bs ++ rest) in
  v = (if 128 <=? last bs 0
       then - (readLE bs - 128 * 256 ^ (Z.of_nat (length bs) - 1))
       else readLE bs) /\
  - (2 ^ 31 - 1) <= v <= 2 ^ 31 - 1 /\
  decodeBlockHeight (Script_toHex (encodeBlockHeight v)) = v.
Proof.
  intros Hbs Hlen. cbv zeta.
  assert (Hdec : decodeBlockHeight (byteHex (Z.of_nat (length bs)) ++ Utils_toHex bs ++ rest)
                 = scriptNum bs).
  { rewrite decode_opcode by (unfold byte; lia).
    destruct (Z.eqb_spec (Z.of_nat (length bs)) 0); [lia|].
    destruct (Z.geb_spec (Z.of_nat (length bs)) 0x51); [lia|]. cbn [andb].
    destruct (Z.eqb_spec (Z.of_nat (length bs)) 0x4f); [lia|].
    cbv zeta.
    assert (Hslice : JS.slice (byteHex (Z.of_nat (length bs)) ++ Utils_toHex bs ++ rest)
                       2 (2 + Z.of_nat (length bs) * 2) = Utils_toHex bs).
    { replace (2 + Z.of_nat (length bs) * 2)
        with (Z.of_nat (length (byteHex (Z.of_nat (length bs))))
              + Z.of_nat (length (Utils_toHex bs)))
        by (rewrite length_toHex; simpl length; lia).
      change 2 with (Z.of_nat (length (byteHex (Z.of_nat (length bs))))) at 1.
      apply slice_mid. }
    rewrite Hslice, toArray_toHex by assumption.
    destruct (Nat.eqb_spec (length bs) 0); [lia|reflexivity]. }
  rewrite Hdec, scriptNum_value by assumption. unfold top.
  assert (Hne : bs <> []) by (destruct bs; [simpl in Hlen; lia|discriminate]).
  pose proof (last_byte _ Hbs) as Htop. unfold byte in Htop.
  pose proof (f_equal (@length Z) (app_removelast_last 0 Hne)) as Hl.
  rewrite length_app in Hl. cbn [length] in Hl.
  assert (Hval : readLE bs = readLE (removelast bs)
                             + 256 ^ (Z.of_nat (length bs) - 1) * last bs 0).
  { rewrite (app_removelast_last 0 Hne) at 1. rewrite readLE_app. cbn [readLE].
    replace (Z.of_nat (length bs) - 1) with (Z.of_nat (length (removelast bs))) by lia.
    ring. }
  assert (Hinit : 0 <= readLE (removelast bs) < 256 ^ (Z.of_nat (length bs) - 1)).
  { replace (Z.of_nat (length bs) - 1) with (Z.of_nat (length (removelast bs))) by lia.
    apply readLE_bound.
    rewrite (app_removelast_last 0 Hne) in Hbs. apply Forall_app in Hbs. tauto. }
  assert (Hmax : 0 < 256 ^ (Z.of_nat (length bs) - 1) <= 256 ^ 3).
  { split; [apply Z.pow_pos_nonneg; lia|apply Z.pow_le_mono_r; lia]. }
  change (256 ^ 3) with 16777216 in Hmax.
  set (P := 256 ^ (Z.of_nat (length bs) - 1)) in *.
  assert (Hrange : - (2 ^ 31 - 1) <=
                   (if 128 <=? last bs 0 then - (readLE bs - 128 * P) else readLE bs)
                   <= 2 ^ 31 - 1).
  { destruct (Z.leb_spec 128 (last bs 0)); nia. }
  split; [reflexivity|]. split; [exact Hrange|].
  apply codec_roundtrip. lia.
Qed.

(** ** lock on any height and any address payload *)

(** X4: [lock] throws exactly when the address does not decode, with the
    decoder's error; otherwise, for every integer height and every payload,
    the script is prefix, 0x14, payload, encoded height, suffix, and
    [isLock] accepts it; when the payload is a 20-byte hash, [decode]
    returns that hash whatever the height. *)
Theorem lock_any_height (fromBase58Check : string -> result (list Z))
    (addr : string) (h : Z) :
  (forall e, fromBase58Check addr = Throw e -> lock fromBase58Check addr h = Throw e) /\
  (forall payload,
     fromBase58Check addr = Ok payload ->
     exists script,
       lock fromBase58Check addr h = Ok script /\
       Script_toHex script =
         LOCK_PREFIX ++ (byteHex 20 ++ Utils_toHex payload)
           ++ Script_toHex (encodeBlockHeight h) ++ LOCK_SUFFIX /\
       isLock script = true /\
       (length payload = 20%nat -> Forall byte payload ->
        decode script =
        Ok (mkLockDecoded payload
              (decodeBlockHeight (Script_toHex (encodeBlockHeight h)))))).
Proof.
  split.
  - intros e He. unfold lock, rbind. now rewrite He.
  - intros payload Hp. unfold lock, rbind. rewrite Hp.
    eexists. split; [reflexivity|].
    pose proof (lock_toHex payload h) as Hhex.
    split; [exact Hhex|]. split.
    + apply isLock_iff. rewrite Hhex. split.
      * eexists. reflexivity.
      * exists (LOCK_PREFIX ++ (byteHex 20 ++ Utils_toHex payload)
                  ++ Script_toHex (encodeBlockHeight h)).
        now rewrite <- !app_assoc.
    + intros Hlen Hbytes.
      exact (proj2 (decode_lock_shape _ payload _ Hlen Hbytes Hhex)).
Qed.

(** ** What isLock accepts *)

(** No end of the prefix is a start of the suffix. *)
Lemma no_overlap (p : nat) :
  (56 <= p < 80)%nat ->
  hex_eqb (firstn (80 - p) LOCK_SUFFIX) (skipn p LOCK_PREFIX) = false.
Proof.
  intros Hp.
  assert (Hall : forallb (fun p => negb (hex_eqb (firstn (80 - p) LOCK_SUFFIX)
                                           (skipn p LOCK_PREFIX)))
                   (seq 56 24) = true) by (vm_compute; reflexivity).
  rewrite forallb_forall in Hall.
  specialize (Hall p ltac:(apply in_seq; lia)).
  now apply negb_true_iff in Hall.
Qed.

(** X5: [isLock] accepts exactly the scripts whose hexadecimal form is the
    prefix, any middle part, the suffix: prefix and suffix cannot overlap,
    so an accepted script has at least 52 bytes. *)
Theorem isLock_sandwich (s : Script) :
  (isLock s = true <->
   exists mid, Script_toHex s = LOCK_PREFIX ++ mid ++ LOCK_SUFFIX) /\
  (isLock s = true -> (52 <= length (Script_toBinary s))%nat).
Proof.
  assert (Hsand : isLock s = true ->
                  exists mid, Script_toHex s = LOCK_PREFIX ++ mid ++ LOCK_SUFFIX).
  { intros Hlock. apply isLock_iff in Hlock.
    destruct Hlock as [[t Ht] [t' Ht']].
    assert (Hlen : (80 + length t = length t' + 24)%nat).
    { pose proof (f_equal (@length hexdigit) Ht) as H1.
      pose proof (f_equal (@length hexdigit) Ht') as H2.
      rewrite length_app in H1, H2.
      change (length LOCK_PREFIX) with 80%nat in H1.
      change (length LOCK_SUFFIX) with 24%nat in H2. lia. }
    assert (Hskip : skipn (length t') (LOCK_PREFIX ++ t) = LOCK_SUFFIX).
    { rewrite <- Ht, Ht', skipn_app, skipn_all, Nat.sub_diag. reflexivity. }
    destruct (le_lt_dec 24 (length t)) as [Hge|Hlt].
    - exists (firstn (length t - 24) t).
      rewrite Ht. f_equal.
      rewrite skipn_app in Hskip.
      change (length LOCK_PREFIX) with 80%nat in Hskip.
      rewrite (skipn_all2 LOCK_PREFIX) in Hskip
        by (change (length LOCK_PREFIX) with 80%nat; lia).
      cbn [app] in Hskip.
      replace (length t' - 80)%nat with (length t - 24)%nat in Hskip by lia.
      transitivity (firstn (length t - 24) t ++ skipn (length t - 24) t);
        [symmetry; apply firstn_skipn|now rewrite Hskip].
    - exfalso.
      rewrite skipn_app in Hskip.
      change (length LOCK_PREFIX) with 80%nat in Hskip.
      replace (length t' - 80)%nat with 0%nat in Hskip by lia.
      cbn [skipn] in Hskip.
      pose proof (no_overlap (length t') ltac:(lia)) as Hno.
      rewrite <- Hskip in Hno.
      rewrite firstn_app, length_skipn in Hno.
      change (length LOCK_PREFIX) with 80%nat in Hno.
      rewrite Nat.sub_diag in Hno. cbn [firstn] in Hno.
      rewrite app_nil_r, firstn_all2 in Hno
        by (rewrite length_skipn; change (length LOCK_PREFIX) with 80%nat; lia).
      rewrite hex_eqb_refl in Hno. discriminate. }
  split; [split; [exact Hsand|]|].
  - intros [mid Hmid]. apply isLock_iff. rewrite Hmid. split.
    + eexists. reflexivity.
    + exists (LOCK_PREFIX ++ mid). now rewrite <- app_assoc.
  - intros Hlock. destruct (Hsand Hlock) as [mid Hmid].
    pose proof (f_equal (@length hexdigit) Hmid) as Hl.
    unfold Script_toHex in Hl. rewrite length_toHex, !length_app in Hl.
    change (length LOCK_PREFIX) with 80%nat in Hl.
    change (length LOCK_SUFFIX) with 24%nat in Hl. lia.
Qed.

End LockMore.

(* ================================================================== *)
(** * Lock.unlock *)
(* ================================================================== *)

Module UnlockFacts.

Import LockUnlock MoreSpec.

Lemma filter_other_past {A : Type} (l : list A) (index i : Z) :
  i < index -> filter_other l index i = l.
Proof.
  revert index. induction l as [|x l IH]; intros index Hi; [reflexivity|].
  cbn [filter_other]. destruct (Z.eqb_spec index i); [lia|].
  f_equal. apply IH. lia.
Qed.

Lemma filter_other_length {A : Type} (l : list A) (index i : Z) (x : A) :
  index <= i -> nth_error l (Z.to_nat (i - index)) = Some x ->
  (length (filter_other l index i) + 1 = length l)%nat.
Proof.
  revert index. induction l as [|a l IH]; intros index Hi Hn.
  - destruct (Z.to_nat (i - index)); discriminate.
  - cbn [filter_other]. destruct (Z.eqb_spec index i) as [->|Hne].
    + rewrite filter_other_past by lia. simpl. lia.
    + cbn [length]. rewrite <- (IH (index + 1)); [lia|lia|].
      replace (Z.to_nat (i - index)) with (S (Z.to_nat (i - (index + 1)))) in Hn by lia.
      exact Hn.
Qed.

(** The filter drops the element at [i] and keeps the others in order. *)
Lemma filter_other_remove {A : Type} (l : list A) (index i : Z) :
  index <= i ->
  filter_other l index i =
  firstn (Z.to_nat (i - index)) l ++ skipn (S (Z.to_nat (i - index))) l.
Proof.
  revert index. induction l as [|a l IH]; intros index Hi.
  - now rewrite firstn_nil, skipn_nil.
  - cbn [filter_other]. destruct (Z.eqb_spec index i) as [->|Hne].
    + rewrite filter_other_past by lia. rewrite Z.sub_diag. reflexivity.
    + rewrite (IH (index + 1)) by lia.
      replace (Z.to_nat (i - index)) with (S (Z.to_nat (i - (index + 1)))) by lia.
      reflexivity.
Qed.

Section WithCollaborators.

Context {sdk : Collaborators}.

(** X6: [sign] rejects with the "sourceTXID or sourceTransaction is
    required" error, before anything is signed, when the input exists and
    names no source: neither field is set, or the id it has or its source
    transaction gives is the empty string; and an error of the source
    transaction's [id] is passed on. *)
Theorem sign_requires_source (privateKey : PrivateKey)
    (signOutputs : option SignOutputs) (anyoneCanPay : option bool)
    (sourceSatoshis : option Z) (lockingScript : option Script)
    (tx : Transaction) (inputIndex : Z) (input : TransactionInput) :
  at_index (inputs tx) inputIndex = Some input ->
  ((sourceTXID input = None /\ sourceTransaction input = None) \/
   sourceTXID input = Some EmptyString \/
   (sourceTXID input = None /\
    exists source, sourceTransaction input = Some source /\
                   Transaction_id source = Ok EmptyString) ->
   sign privateKey signOutputs anyoneCanPay sourceSatoshis lockingScript tx inputIndex
   = Throw source_required) /\
  (forall source e,
     sourceTXID input = None -> sourceTransaction input = Some source ->
     Transaction_id source = Throw e ->
     sign privateKey signOutputs anyoneCanPay sourceSatoshis lockingScript tx inputIndex
     = Throw e).
Proof.
  intros Hin. unfold sign. rewrite Hin. unfold resolve_sourceTXID, rbind. split.
  - intros [[Hid Hsrc]|[Hid|[Hid (source & Hsrc & Hsid)]]].
    + rewrite Hid, Hsrc. reflexivity.
    + rewrite Hid. reflexivity.
    + rewrite Hid, Hsrc, Hsid. reflexivity.
  - intros source e Hid Hsrc He. rewrite Hid, Hsrc, He. reflexivity.
Qed.

(** X7: when [sign] resolves, the unlocking script is exactly two pushes:
    the signature in checksig format, under an opcode equal to its length,
    then the compressed public key under opcode 33.  The signature is over
    the hash of a preimage formatted for a non-empty source id, with the
    input's sequence or 0, the other inputs (one fewer than the
    transaction's), explicit satoshis and locking script when they were
    passed, and the scope the signature itself carries.  Every field of the
    formatted parameters is fixed: the other inputs are the transaction's
    inputs without the one at [inputIndex], in order; the source id is the
    input's, or its source transaction's; version, outputs, lock time and
    source output index are the transaction's and the input's; satoshis and
    subscript are the explicit ones, else those of the source output, else 0
    and the empty script. *)
Theorem sign_unlocking_script (privateKey : PrivateKey)
    (signOutputs : option SignOutputs) (anyoneCanPay : option bool)
    (sourceSatoshis : option Z) (lockingScript : option Script)
    (tx : Transaction) (inputIndex : Z) (script : Script) :
  sign privateKey signOutputs anyoneCanPay sourceSatoshis lockingScript tx inputIndex
    = Ok script ->
  exists input params preimage digest rawSignature pubKey sigData pubData,
    at_index (inputs tx) inputIndex = Some input /\
    script = [mkChunk (Z.of_nat (length sigData)) (Some sigData);
              mkChunk 33 (Some pubData)] /\
    TransactionSignature_format params = Ok preimage /\
    Hash_sha256 preimage = Ok digest /\
    PrivateKey_sign privateKey digest = Ok rawSignature /\
    TransactionSignature_toChecksigFormat rawSignature (fp_scope params) = Ok sigData /\
    PrivateKey_toPublicKey privateKey = Ok pubKey /\
    PublicKey_encode pubKey true = Ok pubData /\
    fp_sourceTXID params <> EmptyString /\
    fp_scope params =
      signatureScope (match signOutputs with Some o => o | None => all end)
                     (match anyoneCanPay with Some b => b | None => false end) /\
    fp_inputIndex params = inputIndex /\
    fp_inputSequence params = match sequence input with Some q => q | None => 0 end /\
    (length (fp_otherInputs params) + 1 = length (inputs tx))%nat /\
    (forall v, sourceSatoshis = Some v -> fp_sourceSatoshis params = v) /\
    (forall v, lockingScript = Some v -> fp_subscript params = v) /\
    (sourceSatoshis = None -> sourceTransaction input = None ->
     fp_sourceSatoshis params = 0) /\
    (lockingScript = None -> sourceTransaction input = None ->
     fp_subscript params = []) /\
    fp_otherInputs params =
      firstn (Z.to_nat inputIndex) (inputs tx)
        ++ skipn (S (Z.to_nat inputIndex)) (inputs tx) /\
    (sourceTXID input = Some (fp_sourceTXID params) \/
     (sourceTXID input = None /\
      exists source, sourceTransaction input = Some source /\
                     Transaction_id source = Ok (fp_sourceTXID params))) /\
    fp_sourceOutputIndex params = sourceOutputIndex input /\
    fp_transactionVersion params = version tx /\
    fp_outputs params = outputs tx /\
    fp_lockTime params = lockTime tx /\
    fp_sourceSatoshis params =
      match sourceSatoshis with
      | Some v => v
      | None =>
          match source_output input with
          | Some o => match satoshis o with Some v => v | None => 0 end
          | None => 0
          end
      end /\
    fp_subscript params =
      match lockingScript with
      | Some v => v
      | None =>
          match source_output input with
          | Some o => LockUnlock.lockingScript o
          | None => []
          end
      end.
Proof.
  unfold sign.
  destruct (at_index (inputs tx) inputIndex) as [input|] eqn:Hin; [|discriminate].
  unfold rbind.
  destruct (resolve_sourceTXID input) as [id|e] eqn:Hid; [|discriminate].
  destruct (falsy id) eqn:Hfalsy; [discriminate|].
  destruct id as [id|]; [|discriminate Hfalsy].
  match goal with
  | |- match TransactionSignature_format ?p with _ => _ end = _ -> _ =>
      set (params := p)
  end.
  destruct (TransactionSignature_format params) as [preimage|e] eqn:Hf; [|discriminate].
  destruct (Hash_sha256 preimage) as [digest|e] eqn:Hh; [|discriminate].
  destruct (PrivateKey_sign privateKey digest) as [rs|e] eqn:Hs; [|discriminate].
  destruct (PrivateKey_toPublicKey privateKey) as [pub|e] eqn:Hp; [|discriminate].
  destruct (TransactionSignature_toChecksigFormat rs _) as [sigData|e] eqn:Hc; [|discriminate].
  destruct (PublicKey_encode pub true) as [pubData|e] eqn:He; [|discriminate].
  intros [= <-].
  exists input, params, preimage, digest, rs, pub, sigData, pubData.
  assert (Hidx : 0 <= inputIndex /\
                 nth_error (inputs tx) (Z.to_nat inputIndex) = Some input).
  { unfold at_index in Hin. destruct (Z.ltb_spec inputIndex 0); [discriminate|]. auto. }
  assert (Hother : fp_otherInputs params =
                   firstn (Z.to_nat inputIndex) (inputs tx)
                     ++ skipn (S (Z.to_nat inputIndex)) (inputs tx)).
  { subst params. cbn [fp_otherInputs].
    rewrite (filter_other_remove _ 0 inputIndex) by lia.
    now rewrite Z.sub_0_r. }
  assert (Hsource : sourceTXID input = Some id \/
                    (sourceTXID input = None /\
                     exists source, sourceTransaction input = Some source /\
                                    Transaction_id source = Ok id)).
  { unfold resolve_sourceTXID, rbind in Hid.
    destruct (sourceTXID input) as [id0|]; [left; congruence|right].
    split; [reflexivity|].
    destruct (sourceTransaction input) as [source|]; [|discriminate].
    exists source. split; [reflexivity|].
    destruct (Transaction_id source); congruence. }
  assert (Hsats : fp_sourceSatoshis params =
                  match sourceSatoshis with
                  | Some v => v
                  | None =>
                      match source_output input with
                      | Some o => match satoshis o with Some v => v | None => 0 end
                      | None => 0
                      end
                  end).
  { subst params. cbn [fp_sourceSatoshis]. unfold nullish.
    destruct sourceSatoshis; [reflexivity|].
    destruct (source_output input) as [o|]; reflexivity. }
  assert (Hsub : fp_subscript params =
                 match lockingScript with
                 | Some v => v
                 | None =>
                     match source_output input with
                     | Some o => LockUnlock.lockingScript o
                     | None => []
                     end
                 end).
  { subst params. cbn [fp_subscript]. unfold nullish.
    destruct lockingScript; [reflexivity|].
    destruct (source_output input) as [o|]; reflexivity. }
  repeat match goal with |- _ /\ _ => split end;
    try assumption; try reflexivity.
  - subst params. cbn [fp_sourceTXID]. destruct id; discriminate.
  - subst params. cbn [fp_otherInputs].
    apply (filter_other_length _ 0 inputIndex input); [lia|].
    now rewrite Z.sub_0_r.
  - intros v ->. reflexivity.
  - intros v ->. reflexivity.
  - intros -> Hsrc. rewrite Hsats. unfold source_output. now rewrite Hsrc.
  - intros -> Hsrc. rewrite Hsub. unfold source_output. now rewrite Hsrc.
Qed.

End WithCollaborators.

End UnlockFacts.

(* ================================================================== *)
(** * More of the SIGMA template *)
(* ================================================================== *)

Module SigmaMore.

Import Sigma SigmaSpec SigmaFacts MoreSpec.

Section WithCollaborators.

Context {sdk : Collaborators}.

(** ** verify() and the flag *)

(** X8: [verify()] after [verifyWithHashes] reports what that call
    returned: the call returns a boolean and [verify()] on the record it
    leaves is that boolean. *)
Theorem verify_reports_last_check (d : SigmaData) (inputHash dataHash : list Z)
    (key : option PrivateKey) :
  exists b : bool,
    fst (verifyWithHashes inputHash dataHash key d) = Ok b /\
    verify (snd (verifyWithHashes inputHash dataHash key d)) = b.
Proof.
  destruct (verifyWithHashes_run d inputHash dataHash key) as [b Hb].
  exists b. rewrite Hb. split; [reflexivity|]. destruct b; reflexivity.
Qed.

(** X9: a record fresh from [Sigma.decode] has no [valid] flag and
    [verify()] is false on it; a record fresh from [Sigma.sign] has
    [verify()] true although nothing was checked. *)
Theorem verify_on_fresh_records :
  (forall (bitcom : BitComDecoded) (sigmas : list SigmaData) (r : SigmaData),
     decode bitcom = Ok sigmas -> In r sigmas ->
     valid r = None /\ verify r = false) /\
  (forall (inputHash dataHash : list Z) (privateKey : PrivateKey)
          (options : SigmaOptions) (r : SigmaData),
     sign inputHash dataHash privateKey options = Ok r ->
     verify r = true).
Proof.
  split.
  - intros bitcom sigmas r Hdec Hin. rewrite decode_run in Hdec.
    injection Hdec as <-.
    destruct (records_from_In _ _ _ Hin) as (k & p & chunks & _ & _ & ->).
    split; reflexivity.
  - intros inputHash dataHash privateKey options r. unfold sign, rbind.
    destruct (PrivateKey_toAddress privateKey) as [addr|e]; [|discriminate].
    match goal with
    | |- match ?sig with Ok _ => _ | Throw _ => _ end = _ -> _ =>
        destruct sig as [sigArray|e]; [|discriminate]
    end.
    intros [= <-]. reflexivity.
Qed.

(** X10: [verifyWithHashes] does not read the [valid] flag: on two records
    that differ at most in that flag it returns the same boolean and leaves
    the same record; so a stale flag is overwritten, and checking twice
    gives the first outcome again. *)
Theorem verifyWithHashes_ignores_flag (d1 d2 : SigmaData)
    (inputHash dataHash : list Z) (key : option PrivateKey) :
  same_but_valid d1 d2 ->
  verifyWithHashes inputHash dataHash key d1
    = verifyWithHashes inputHash dataHash key d2 /\
  verifyWithHashes inputHash dataHash key
      (snd (verifyWithHashes inputHash dataHash key d1))
    = verifyWithHashes inputHash dataHash key d1.
Proof.
  assert (Hsame : forall e1 e2, same_but_valid e1 e2 ->
            verifyWithHashes inputHash dataHash key e1
            = verifyWithHashes inputHash dataHash key e2).
  { intros [bi1 alg1 addr1 sig1 vin1 v1] [bi2 alg2 addr2 sig2 vin2 v2].
    unfold same_but_valid. cbn [bitcomIndex algorithm address signature vin].
    intros (<- & <- & <- & <- & <-).
    set (e1 := mkSigmaData bi1 alg1 addr1 sig1 vin1 v1).
    set (e2 := mkSigmaData bi1 alg1 addr1 sig1 vin1 v2).
    destruct (String.eqb alg1 Algorithm_BRC77) eqn:Halg.
    - unfold verifyWithHashes, tryM, bind, this_data, call, set_valid, ret.
      cbn [algorithm signature e1 e2]. rewrite Halg.
      destruct (SignedMessage_verify (inputHash ++ dataHash) sig1 key); reflexivity.
    - destruct (verifyWithHashes_bsm_run e1 inputHash dataHash key Halg) as [Y1 N1].
      destruct (verifyWithHashes_bsm_run e2 inputHash dataHash key Halg) as [Y2 N2].
      change (Recoverable e2 (inputHash ++ dataHash))
        with (Recoverable e1 (inputHash ++ dataHash)) in Y2, N2.
      destruct (Recoverable_dec e1 (inputHash ++ dataHash)) as [H|H].
      + rewrite (Y1 H), (Y2 H). reflexivity.
      + rewrite (N1 H), (N2 H). reflexivity. }
  intros H12. split; [now apply Hsame|].
  apply Hsame.
  destruct (verifyWithHashes_run d1 inputHash dataHash key) as [b Hb].
  rewrite Hb. cbn [snd]. unfold same_but_valid, with_valid.
  cbn [bitcomIndex algorithm address signature vin]. auto.
Qed.

(** X11: for a BRC77 record the outcome is [SignedMessage.verify]'s: its
    boolean is returned and stored in [valid]; if it throws, the method
    returns [false] and stores [false].  The BSM functions play no part. *)
Theorem verifyWithHashes_brc77 (d : SigmaData) (inputHash dataHash : list Z)
    (key : option PrivateKey) :
  algorithm d = Algorithm_BRC77 ->
  verifyWithHashes inputHash dataHash key d =
  match SignedMessage_verify (inputHash ++ dataHash) (signature d) key with
  | Ok v => (Ok v, with_valid d v)
  | Throw _ => (Ok false, with_valid d false)
  end.
Proof.
  intros Halg.
  unfold verifyWithHashes, tryM, bind, this_data, call, set_valid, ret.
  rewrite Halg. cbn [String.eqb Algorithm_BRC77].
  change (String.eqb Algorithm_BRC77 Algorithm_BRC77) with true. cbv iota.
  destruct (SignedMessage_verify (inputHash ++ dataHash) (signature d) key); reflexivity.
Qed.

(** ** The recovery search *)

Lemma candidates_dec (d : SigmaData) (m : list Z) (sig : Signature) (l : list Z) :
  (exists r, In r l /\ Candidate d m sig r) \/
  (forall r, In r l -> ~ Candidate d m sig r).
Proof.
  induction l as [|r l [IH|IH]].
  - right. intros r [].
  - left. destruct IH as (r' & Hin & Hc). exists r'. split; [now right|assumption].
  - destruct (Candidate_dec d m sig r) as [Hr|Hr].
    + left. exists r. split; [now left|assumption].
    + right. intros r' [<-|Hin]; auto.
Qed.

(** X12: the search over recovery factors does not depend on the order in
    which they are tried, nor on repetitions: two lists with the same
    factors give the same outcome and leave the same record. *)
Theorem recovery_order_irrelevant (d : SigmaData) (m : list Z) (sig : Signature)
    (l l' : list Z) :
  (forall r, In r l <-> In r l') ->
  for_recovery l sig m d = for_recovery l' sig m d.
Proof.
  intros Hsame.
  destruct (for_recovery_run d m sig l) as [Y N].
  destruct (for_recovery_run d m sig l') as [Y' N'].
  destruct (candidates_dec d m sig l) as [(r & Hin & Hc)|Hno].
  - rewrite Y by eauto. rewrite Y'; [reflexivity|].
    exists r. split; [now apply Hsame|assumption].
  - rewrite N by assumption. rewrite N'; [reflexivity|].
    intros r Hin. apply Hno. now apply Hsame.
Qed.

(** X13: only the concatenation of the two hashes matters: however the
    same bytes are split between [inputHash] and [dataHash], [sign] and
    [verifyWithHashes] behave the same; no length of either hash is
    checked. *)
Theorem hashes_only_concatenated (inputHash dataHash inputHash' dataHash' : list Z) :
  inputHash ++ dataHash = inputHash' ++ dataHash' ->
  (forall (key : option PrivateKey) (d : SigmaData),
     verifyWithHashes inputHash dataHash key d
     = verifyWithHashes inputHash' dataHash' key d) /\
  (forall (privateKey : PrivateKey) (options : SigmaOptions),
     sign inputHash dataHash privateKey options
     = sign inputHash' dataHash' privateKey options).
Proof.
  intros H. split.
  - intros key d. unfold verifyWithHashes. now rewrite H.
  - intros privateKey options. unfold sign. now rewrite H.
Qed.

(** ** Sigma.decode *)

(** X14: a segment with another label, and a SIGMA segment on which
    [Script.fromBinary] throws, are passed over: the loop goes on with the
    next index and the records collected so far; neither makes [decode]
    throw. *)
Theorem decode_passes_over (p : Protocol) (rest : list Protocol) (i : Z)
    (sigmas : list SigmaData) :
  protocol p <> SIGMA_PREFIX \/ (exists e, Script_fromBinary (script p) = Throw e) ->
  decode_loop (p :: rest) i sigmas = decode_loop rest (i + 1) sigmas /\
  (forall before,
     decode (mkBitComDecoded (before ++ p :: rest)) =
     Ok (records_from before 0 ++ records_from rest (Z.of_nat (length before) + 1))).
Proof.
  intros Hp.
  assert (Hnone : segment_records i p = [] /\ forall j, segment_records j p = []).
  { unfold segment_records. destruct Hp as [Hlabel|[e He]].
    - apply String.eqb_neq in Hlabel. rewrite Hlabel. auto.
    - rewrite He. destruct (String.eqb (protocol p) SIGMA_PREFIX); auto. }
  destruct Hnone as [Hi Hall]. split.
  - rewrite !decode_loop_run. cbn [records_from]. now rewrite Hi.
  - intros before. rewrite decode_run. cbn [protocols].
    rewrite records_from_app. cbn [records_from]. rewrite Hall. simpl.
    repeat f_equal; lia.
Qed.

Lemma increasing_weaken (lo lo' hi : Z) (l : list SigmaData) :
  lo' <= lo -> increasing_indices lo hi l -> increasing_indices lo' hi l.
Proof.
  intros Hle. destruct l as [|r l]; [trivial|].
  cbn [increasing_indices]. intros (k & Hk & Hr & Hrest).
  exists k. repeat split; try assumption; lia.
Qed.

Lemma records_from_increasing (ps : list Protocol) (i : Z) :
  increasing_indices i (i + Z.of_nat (length ps)) (records_from ps i).
Proof.
  revert i. induction ps as [|p ps IH]; intros i; [exact I|].
  cbn [records_from].
  specialize (IH (i + 1)).
  replace (i + 1 + Z.of_nat (length ps)) with (i + Z.of_nat (length (p :: ps))) in IH
    by (cbn [length]; lia).
  unfold segment_records.
  destruct (String.eqb (protocol p) SIGMA_PREFIX);
    [|apply (increasing_weaken (i + 1)); [lia|exact IH]].
  destruct (Script_fromBinary (script p)) as [chunks|e];
    [|apply (increasing_weaken (i + 1)); [lia|exact IH]].
  destruct (length chunks <? 4)%nat;
    [apply (increasing_weaken (i + 1)); [lia|exact IH]|].
  cbn [app increasing_indices]. exists i.
  split; [reflexivity|]. split; [cbn [length]; lia|exact IH].
Qed.

Lemma records_from_count (ps : list Protocol) (i : Z) :
  (length (records_from ps i) <= sigma_segments ps)%nat.
Proof.
  revert i. unfold sigma_segments.
  induction ps as [|p ps IH]; intros i; [simpl; lia|].
  cbn [records_from filter]. rewrite length_app. specialize (IH (i + 1)).
  unfold segment_records.
  destruct (String.eqb (protocol p) SIGMA_PREFIX); [|simpl; lia].
  destruct (Script_fromBinary (script p)) as [chunks|e]; [|simpl; lia].
  destruct (length chunks <? 4)%nat; simpl; lia.
Qed.

Lemma records_from_complete (ps : list Protocol) (i : Z) (k : nat)
    (p : Protocol) (chunks : Script) :
  nth_error ps k = Some p -> well_formed_segment p chunks ->
  In (record_of (i + Z.of_nat k) chunks) (records_from ps i).
Proof.
  revert i k. induction ps as [|q ps IH]; intros i k Hnth Hwf.
  - destruct k; discriminate.
  - cbn [records_from]. apply in_or_app. destruct k as [|k].
    + injection Hnth as ->. left.
      rewrite (well_formed_segment_records _ _ _ Hwf).
      rewrite Z.add_0_r. now left.
    + right. cbn [nth_error] in Hnth.
      replace (i + Z.of_nat (S k)) with (i + 1 + Z.of_nat k) by lia.
      now apply IH.
Qed.

(** X15: the records [decode] returns are in the order of their segments:
    each carries the index of its segment, the indices increase strictly
    along the list and stay below the number of segments; and there are no
    more records than segments labelled SIGMA.  A record with index [k] is
    the record of segment [k], which is a SIGMA segment of four sub-fields
    or more, and every such segment has its record in the list. *)
Theorem decode_indices (bitcom : BitComDecoded) (sigmas : list SigmaData) :
  decode bitcom = Ok sigmas ->
  increasing_indices 0 (Z.of_nat (length (protocols bitcom))) sigmas /\
  (length sigmas <= sigma_segments (protocols bitcom))%nat /\
  (forall r, In r sigmas ->
     exists (k : nat) (p : Protocol) (chunks : Script),
       bitcomIndex r = Some (Z.of_nat k) /\
       nth_error (protocols bitcom) k = Some p /\
       well_formed_segment p chunks /\
       r = record_of (Z.of_nat k) chunks) /\
  (forall (k : nat) (p : Protocol) (chunks : Script),
     nth_error (protocols bitcom) k = Some p ->
     well_formed_segment p chunks ->
     In (record_of (Z.of_nat k) chunks) sigmas).
Proof.
  rewrite decode_run. intros [= <-]. split; [|split; [|split]].
  - exact (records_from_increasing (protocols bitcom) 0).
  - apply records_from_count.
  - intros r Hin.
    destruct (records_from_In _ _ _ Hin) as (k & p & chunks & Hnth & Hwf & ->).
    exists k, p, chunks. rewrite Z.add_0_l. auto.
  - intros k p chunks Hnth Hwf.
    rewrite <- (Z.add_0_l (Z.of_nat k)).
    exact (records_from_complete _ 0 k p chunks Hnth Hwf).
Qed.

(** X16: decoding is segment by segment: the loop over two lists of
    segments put end to end is the loop over the first, then the loop over
    the second started at the index after the first, with the records of the
    first. *)
Theorem decode_loop_app (a b : list Protocol) (i : Z) (sigmas : list SigmaData) :
  decode_loop (a ++ b) i sigmas =
  (collected <- decode_loop a i sigmas ;;
   decode_loop b (i + Z.of_nat (length a)) collected)%result.
Proof.
  rewrite !decode_loop_run. unfold rbind. rewrite decode_loop_run.
  now rewrite records_from_app, app_assoc.
Qed.

End WithCollaborators.

End SigmaMore.

(** ** Sigma.decodeFromScript *)

Module SigmaScriptFacts.

Import Sigma SigmaSpec SigmaFacts SigmaScript.

Section WithCollaborators.

Context {sdk : Collaborators}.

(** X17: [Sigma.decodeFromScript] throws only when [BitCom.decode] does,
    with the same error; a script without BitCom data gives the empty list;
    otherwise the result is what [Sigma.decode] gives on the segments, so
    every record comes from a SIGMA segment of at least four sub-fields and
    is unverified. *)
Theorem decodeFromScript_outcomes
    (BitCom_decode : Script -> result (option BitComDecoded)) (script : Script) :
  (forall e, decodeFromScript BitCom_decode script = Throw e ->
             BitCom_decode script = Throw e) /\
  (BitCom_decode script = Ok None -> decodeFromScript BitCom_decode script = Ok []) /\
  (forall bitcom sigmas r,
     BitCom_decode script = Ok (Some bitcom) ->
     decodeFromScript BitCom_decode script = Ok sigmas ->
     decode bitcom = Ok sigmas /\
     (In r sigmas ->
      valid r = None /\
      exists (k : nat) (p : Protocol) (chunks : Script),
        nth_error (protocols bitcom) k = Some p /\
        well_formed_segment p chunks /\
        r = record_of (Z.of_nat k) chunks)).
Proof.
  unfold decodeFromScript, rbind. split; [|split].
  - intros e. destruct (BitCom_decode script) as [[bitcom|]|e']; try discriminate.
    + rewrite decode_run. discriminate.
    + intros [= ->]. reflexivity.
  - intros ->. reflexivity.
  - intros bitcom sigmas r -> Hdec. split; [exact Hdec|].
    rewrite decode_run in Hdec. injection Hdec as <-. intros Hin.
    destruct (records_from_In _ _ _ Hin) as (k & p & chunks & Hnth & Hwf & ->).
    split; [reflexivity|]. exists k, p, chunks. rewrite Z.add_0_l. auto.
Qed.

End WithCollaborators.

End SigmaScriptFacts.

(* ================================================================== *)
(** * The further theorems on concrete inputs *)
(* ================================================================== *)

Module MoreExamples.

Lemma encode_wraps_witness :
  Lock.encodeBlockHeight (800000 + 1 * 2 ^ 32) = Lock.encodeBlockHeight 800000 /\
  Lock.decodeBlockHeight (Script_toHex (Lock.encodeBlockHeight (800000 + 1 * 2 ^ 32)))
    = 800000.
Proof.
  assert (H1 : 16 < 800000 < 2 ^ 31) by lia.
  assert (H2 : 0 <= 1) by lia.
  destruct (LockMore.encode_wraps 800000 1 H1 H2) as (Ha & _ & _ & Hd).
  split; assumption.
Defined.

Lemma two_bytes : Forall byte [128; 128] /\ (1 <= length [128; 128] <= 4)%nat.
Proof.
  split; [|simpl; lia]. repeat constructor; unfold byte; lia.
Defined.

Lemma decode_push_value_witness :
  Lock.decodeBlockHeight (byteHex 2 ++ Utils_toHex [128; 128] ++ hex "ff") = -128.
Proof.
  destruct (LockMore.decode_push_value [128; 128] (hex "ff")
              (proj1 two_bytes) (proj2 two_bytes)) as (Hv & _ & _).
  exact Hv.
Defined.

Lemma lock_any_height_witness :
  exists script,
    Lock.lock Toy.fromBase58Check "1A1zP1eP5QGefi2DMPTfTL5SLmv7DivfNa" (2 ^ 40) = Ok script /\
    Lock.isLock script = true.
Proof.
  destruct (proj2 (LockMore.lock_any_height Toy.fromBase58Check
                     "1A1zP1eP5QGefi2DMPTfTL5SLmv7DivfNa" (2 ^ 40))
              (repeat 7 20) eq_refl) as (script & Hl & _ & Hi & _).
  exists script. split; assumption.
Defined.

Lemma isLock_sandwich_witness :
  (52 <= length (Script_toBinary Toy.lock_800000))%nat.
Proof.
  exact (proj2 (LockMore.isLock_sandwich Toy.lock_800000) eq_refl).
Defined.

Lemma sign_requires_source_witness :
  LockUnlock.sign (sdk := ToyUnlock.sdk) 5 None None None None ToyUnlock.orphan_spend 0
  = Throw MoreSpec.source_required.
Proof.
  refine (proj1 (UnlockFacts.sign_requires_source (sdk := ToyUnlock.sdk)
                   5 None None None None ToyUnlock.orphan_spend 0
                   (LockUnlock.mkInput None None 0 (Some 0)) eq_refl) _).
  left. split; reflexivity.
Defined.

Lemma sign_unlocking_script_witness :
  exists sigData pubData,
    LockUnlock.sign (sdk := ToyUnlock.sdk) 5 None None None None ToyUnlock.spend 0
    = Ok [mkChunk (Z.of_nat (length sigData)) (Some sigData); mkChunk 33 (Some pubData)].
Proof.
  destruct (UnlockFacts.sign_unlocking_script (sdk := ToyUnlock.sdk)
              5 None None None None ToyUnlock.spend 0 _ eq_refl)
    as (input & params & preimage & digest & rs & pub & sigData & pubData & _ & Hs & _).
  exists sigData, pubData. rewrite <- Hs. reflexivity.
Defined.

Lemma verify_on_fresh_records_witness :
  Sigma.verify
    (Sigma.mkSigmaData (Some 0) "BSM" "a" [1; 2; 3] (Num 0) None) = false /\
  Sigma.verify
    (Sigma.mkSigmaData None "BSM" "1Key7" [7; 1; 2] (Num 0) (Some true)) = true.
Proof.
  split.
  - exact (proj2 (proj1 (SigmaMore.verify_on_fresh_records (sdk := Toy.sdk))
                    (Sigma.mkBitComDecoded [Toy.short_signature_segment]) _ _
                    eq_refl (or_introl eq_refl))).
  - exact (proj2 (SigmaMore.verify_on_fresh_records (sdk := Toy.sdk))
             [1] [2] 7 (Sigma.mkSigmaOptions None None None) _ eq_refl).
Defined.

Lemma flags_differ :
  MoreSpec.same_but_valid Toy.bsm_record (Sigma.with_valid Toy.bsm_record false).
Proof. repeat split. Defined.

Lemma verifyWithHashes_ignores_flag_witness :
  Sigma.verifyWithHashes (sdk := Toy.sdk) [1] [2] None Toy.bsm_record
  = Sigma.verifyWithHashes (sdk := Toy.sdk) [1] [2] None
      (Sigma.with_valid Toy.bsm_record false).
Proof.
  exact (proj1 (SigmaMore.verifyWithHashes_ignores_flag (sdk := Toy.sdk)
                  Toy.bsm_record (Sigma.with_valid Toy.bsm_record false)
                  [1] [2] None flags_differ)).
Defined.

Lemma verifyWithHashes_brc77_witness :
  Sigma.verifyWithHashes (sdk := Toy.sdk) [1] [2] None
    (Sigma.mkSigmaData None "BRC77" "1Key7" [7; 1; 2] (Num 0) None)
  = (Ok true, Sigma.mkSigmaData None "BRC77" "1Key7" [7; 1; 2] (Num 0) (Some true)).
Proof.
  exact (SigmaMore.verifyWithHashes_brc77 (sdk := Toy.sdk)
           (Sigma.mkSigmaData None "BRC77" "1Key7" [7; 1; 2] (Num 0) None)
           [1] [2] None eq_refl).
Defined.

Lemma same_factors (r : Z) : In r [0; 1; 2; 3] <-> In r [3; 2; 1; 0; 2].
Proof. simpl. split; intros H; tauto. Defined.

Lemma recovery_order_irrelevant_witness :
  Sigma.for_recovery (sdk := Toy.sdk) [0; 1; 2; 3] [7; 1; 2] [1; 2] Toy.bsm_record
  = Sigma.for_recovery (sdk := Toy.sdk) [3; 2; 1; 0; 2] [7; 1; 2] [1; 2] Toy.bsm_record.
Proof.
  exact (SigmaMore.recovery_order_irrelevant (sdk := Toy.sdk)
           Toy.bsm_record [1; 2] [7; 1; 2] _ _ same_factors).
Defined.

Lemma hashes_only_concatenated_witness :
  Sigma.verifyWithHashes (sdk := Toy.sdk) [1] [2; 3] None Toy.bsm_record
  = Sigma.verifyWithHashes (sdk := Toy.sdk) [1; 2] [3] None Toy.bsm_record.
Proof.
  exact (proj1 (SigmaMore.hashes_only_concatenated (sdk := Toy.sdk)
                  [1] [2; 3] [1; 2] [3] eq_refl) None Toy.bsm_record).
Defined.

Lemma decode_passes_over_witness :
  Sigma.decode_loop (sdk := Toy.sdk)
    [Sigma.mkProtocol "AIP" [1; 2] 0; Toy.short_signature_segment] 0 []
  = Sigma.decode_loop (sdk := Toy.sdk) [Toy.short_signature_segment] (0 + 1) [].
Proof.
  refine (proj1 (SigmaMore.decode_passes_over (sdk := Toy.sdk)
                   (Sigma.mkProtocol "AIP" [1; 2] 0) [Toy.short_signature_segment]
                   0 [] _)).
  left. discriminate.
Defined.

Lemma decode_indices_witness :
  MoreSpec.increasing_indices 0 2
    [Sigma.mkSigmaData (Some 1) "BSM" "a" [1; 2; 3] (Num 0) None] /\
  (1 <= MoreSpec.sigma_segments [Toy.truncated_segment; Toy.short_signature_segment])%nat.
Proof.
  destruct (SigmaMore.decode_indices (sdk := Toy.sdk)
              (Sigma.mkBitComDecoded [Toy.truncated_segment; Toy.short_signature_segment])
              _ eq_refl) as (Hinc & Hcount & _).
  split; assumption.
Defined.

Lemma decodeFromScript_outcomes_witness :
  SigmaScript.decodeFromScript (sdk := Toy.sdk) (fun _ => Ok None) [] = Ok [].
Proof.
  exact (proj1 (proj2 (SigmaScriptFacts.decodeFromScript_outcomes (sdk := Toy.sdk)
                         (fun _ => Ok None) [])) eq_refl).
Defined.

End MoreExamples.
